(** * jkjs.util: the sorted-array difference and its sortedness guard

    A shallow embedding of [ensureSorted], [requireSorted], [getRemaining]
    and [getRemainingIter] of [jkjs/util.js].

    JavaScript arrays are objects held by reference and mutated in place
    ([arr.sort], [res.push]); they live in a heap of array contents addressed
    by locations, and every function is a computation in a state monad over
    that heap and the console.  The [while] and [for] loops are iterated by a
    fuelled loop combinator, so that termination is a theorem and not a
    consequence of the encoding.

    The file goes on to the other helpers of [util.js] that compute on data:
    [applyPerm] in the same monad, [rectIntersect], [convertClasses],
    [isEmpty], [flatMap], [getQueryStrings] and the [startsWith] substitute
    as functions, and [toFront] on a small model of the document. *)

From Stdlib Require Import Ascii.
From stdpp Require Import gmap list sorting.
From stdpp Require Import strings.

Set Default Proof Using "Type".
Local Open Scope Z_scope.

(** ** Numbers *)

(** The arrays hold index values, modelled as integers; values that do not
    compare ([NaN], non-numbers) are outside the contract of the functions.
    The scans start from [Number.NEGATIVE_INFINITY], which is not an array
    element: the values a [prev] variable takes are the integers extended by
    it. *)
Inductive number : Type :=
  | NEGATIVE_INFINITY
  | Num (z : Z).

(** [a < b] on such values. *)
Definition number_lt (a b : number) : bool :=
  match a, b with
  | _, NEGATIVE_INFINITY => false
  | NEGATIVE_INFINITY, Num _ => true
  | Num x, Num y => x <? y
  end.

(** d3's comparator:
    [a < b ? -1 : a > b ? 1 : a >= b ? 0 : NaN]. On integers the last
    alternative is never taken. *)
Definition d3_ascending (a b : Z) : Z :=
  if a <? b then -1 else if a >? b then 1 else 0.

(** [Array.prototype.sort(cmp)]: the host's stable sort, as a stable insertion
    sort that consults only the sign of the comparator. *)
Fixpoint sort_insert (cmp : Z → Z → Z) (x : Z) (l : list Z) : list Z :=
  match l with
  | [] => [x]
  | y :: l' => if 0 <? cmp x y then y :: sort_insert cmp x l' else x :: l
  end.

Definition Array_sort (cmp : Z → Z → Z) (l : list Z) : list Z :=
  foldr (sort_insert cmp) [] l.

(** ** Heap, console and the monad *)

Abbreviation loc := nat.

(** What [console.warn] receives (the stack trace is left out). *)
Inductive diagnostic : Type :=
  | SlowSortTest
  | ArrayNotSorted (swapped : list number) (arr : list Z).

Record state : Type := State {
  heap : gmap loc (list Z);
  console : list diagnostic
}.

(** A computation ends with a value and a state, leaves the model ([Fault]: a
    reference to no array, or a read past the end of an array, whose value
    [undefined] the arrays of the model cannot hold), or runs out of fuel. *)
Inductive result (A : Type) : Type :=
  | Ok (a : A) (σ : state)
  | Fault
  | OutOfFuel.
Arguments Ok {A} a σ.
Arguments Fault {A}.
Arguments OutOfFuel {A}.

Definition M (A : Type) : Type := state → result A.

Global Instance M_ret : MRet M := fun A (a : A) σ => Ok a σ.

Global Instance M_bind : MBind M := fun A B (f : A → M B) (m : M A) σ =>
  match m σ with
  | Ok a σ' => f a σ'
  | Fault => Fault
  | OutOfFuel => OutOfFuel
  end.

Abbreviation ret := mret.

Definition fault {A} : M A := fun _ => Fault.
Definition out_of_fuel {A} : M A := fun _ => OutOfFuel.

(** The contents of the array at [a]. *)
Definition array_contents (a : loc) : M (list Z) :=
  fun σ => match heap σ !! a with
           | Some l => Ok l σ
           | None => Fault
           end.

(** [a.length] *)
Definition array_length (a : loc) : M nat :=
  l ← array_contents a; ret (length l).

(** [a[i]], for [i] in range. *)
Definition array_get (a : loc) (i : nat) : M Z :=
  l ← array_contents a;
  match (l : list Z) !! i with
  | Some v => ret v
  | None => fault
  end.

(** The state in which the array at [a] has contents [l]. *)
Definition set_array (a : loc) (l : list Z) (σ : state) : state :=
  State (<[a := l]> (heap σ)) (console σ).

Definition array_store (a : loc) (l : list Z) : M unit :=
  fun σ => Ok tt (set_array a l σ).

(** [a.push(v)] *)
Definition array_push (a : loc) (v : Z) : M unit :=
  l ← array_contents a; array_store a (l ++ [v]).

(** [a.sort(cmp)] *)
Definition array_sort (cmp : Z → Z → Z) (a : loc) : M unit :=
  l ← array_contents a; array_store a (Array_sort cmp l).

(** [[]]: a new, empty array at a location not in use. *)
Definition array_new : M loc :=
  fun σ => let r := fresh (dom (heap σ)) in Ok r (set_array r [] σ).

(** [console.warn(...)] *)
Definition console_warn (d : diagnostic) : M unit :=
  fun σ => Ok tt (State (heap σ) (console σ ++ [d])).

(** One turn of a loop either goes on with new loop variables or leaves the
    loop with a value ([return], or the loop test failing). *)
Inductive turn (St R : Type) : Type :=
  | Next (s : St)
  | Leave (r : R).
Arguments Next {St R} s.
Arguments Leave {St R} r.

Fixpoint loop {St R} (body : St → M (turn St R)) (fuel : nat) (s : St) : M R :=
  match fuel with
  | O => out_of_fuel
  | S fuel' =>
      t ← body s;
      match t with
      | Next s' => loop body fuel' s'
      | Leave r => ret r
      end
  end.

(** ** The functions of util.js *)

(** The callback of [arr.forEach] in [requireSorted], on the variables
    [prev], [run] and [swapped] it closes over. *)
Definition requireSorted_each (acc : number * bool * list number) (v : Z)
    : number * bool * list number :=
  let '(prev, run, swapped) := acc in
  if number_lt (Num v) prev then
    let swapped := if negb run then swapped ++ [prev] else swapped in
    (Num v, true, swapped ++ [Num v])
  else
    (Num v, false, swapped).

Definition requireSorted (arr : loc) : M unit :=
  console_warn SlowSortTest ;;
  l ← array_contents arr;
  let '(_, _, swapped) :=
    foldl requireSorted_each (NEGATIVE_INFINITY, false, []) l in
  if negb (length swapped =? 0)%nat then
    console_warn (ArrayNotSorted swapped l) ;;
    array_sort d3_ascending arr
  else ret tt.

Definition ensureSorted_turn (arr : loc) (s : nat * number)
    : M (turn (nat * number) unit) :=
  let '(i, prev) := s in
  n ← array_length arr;
  if (i <? n)%nat then
    v ← array_get arr i;
    if number_lt (Num v) prev then
      requireSorted arr ;;
      ret (Leave tt)
    else ret (Next ((i + 1)%nat, Num v))
  else ret (Leave tt).

Definition ensureSorted (fuel : nat) (arr : loc) : M unit :=
  n ← array_length arr;
  if (n =? 0)%nat then ret tt
  else loop (ensureSorted_turn arr) fuel (0%nat, NEGATIVE_INFINITY).

(** The body of the [while] loop of [getRemaining], on [p] and [q]. *)
Definition getRemaining_while (ixs minus res : loc) (s : nat * nat)
    : M (turn (nat * nat) (nat * nat)) :=
  let '(p, q) := s in
  n ← array_length ixs;
  k ← array_length minus;
  if (p <? n)%nat && (q <? k)%nat then
    cur ← array_get ixs p;
    m ← array_get minus q;
    if cur <? m then
      array_push res cur ;;
      ret (Next ((p + 1)%nat, q))
    else if cur >? m then
      ret (Next (p, (q + 1)%nat))
    else
      ret (Next ((p + 1)%nat, q))
  else ret (Leave (p, q)).

(** The body of the closing [for] loop of [getRemaining], on [p]. *)
Definition getRemaining_for (ixs res : loc) (p : nat) : M (turn nat unit) :=
  n ← array_length ixs;
  if (p <? n)%nat then
    v ← array_get ixs p;
    array_push res v ;;
    ret (Next (p + 1)%nat)
  else ret (Leave tt).

Definition getRemaining (fuel : nat) (ixs minus : loc) : M loc :=
  n ← array_length ixs;
  if (n =? 0)%nat then ret ixs else
  k ← array_length minus;
  if (k =? 0)%nat then ret ixs else
  ensureSorted fuel ixs ;;
  ensureSorted fuel minus ;;
  res ← array_new;
  '(p, q) ← loop (getRemaining_while ixs minus res) fuel (0%nat, 0%nat);
  loop (getRemaining_for ixs res) fuel p ;;
  ret res.

(** The consumer callback acts on a state [C] of its own; [getRemainingIter]
    threads it through its calls and hands back the last one. *)
Section iter.
Context {C : Type} (cb : Z → C → C).

Definition getRemainingIter_while (ixs minus : loc) (s : nat * nat * C)
    : M (turn (nat * nat * C) (nat * nat * C)) :=
  let '(p, q, c) := s in
  n ← array_length ixs;
  k ← array_length minus;
  if (p <? n)%nat && (q <? k)%nat then
    cur ← array_get ixs p;
    m ← array_get minus q;
    if cur <? m then
      ret (Next ((p + 1)%nat, q, cb cur c))
    else if cur >? m then
      ret (Next (p, (q + 1)%nat, c))
    else
      ret (Next ((p + 1)%nat, q, c))
  else ret (Leave (p, q, c)).

Definition getRemainingIter_for (ixs : loc) (s : nat * C)
    : M (turn (nat * C) C) :=
  let '(p, c) := s in
  n ← array_length ixs;
  if (p <? n)%nat then
    v ← array_get ixs p;
    ret (Next ((p + 1)%nat, cb v c))
  else ret (Leave c).

Definition getRemainingIter (fuel : nat) (ixs minus : loc) (c : C) : M C :=
  n ← array_length ixs;
  if (n =? 0)%nat then
    l ← array_contents ixs; ret (foldl (fun c v => cb v c) c l)
  else
  k ← array_length minus;
  if (k =? 0)%nat then
    l ← array_contents ixs; ret (foldl (fun c v => cb v c) c l)
  else
  ensureSorted fuel ixs ;;
  ensureSorted fuel minus ;;
  '(p, q, c) ← loop (getRemainingIter_while ixs minus) fuel (0%nat, 0%nat, c);
  loop (getRemainingIter_for ixs) fuel (p, c).
End iter.

(** ** Specification-level definitions *)

(** An ascending sequence: each element is greater than or equal to its
    predecessor. *)
Definition ascending (l : list Z) : Prop :=
  ∀ i x y, l !! i = Some x → l !! S i = Some y → x ≤ y.

(** The verdict of the scan of [ensureSorted] on the elements still ahead:
    [true] when no element is below its predecessor. *)
Fixpoint scan (prev : number) (l : list Z) : bool :=
  match l with
  | [] => true
  | v :: l' => if number_lt (Num v) prev then false else scan (Num v) l'
  end.

(** The run of out-of-order values [requireSorted] reports. *)
Definition swapped_of (l : list Z) : list number :=
  (foldl requireSorted_each (NEGATIVE_INFINITY, false, []) l).2.

(** The state [ensureSorted] leaves, for an array [arr] of contents [l]. *)
Definition ensureSorted_post (arr : loc) (l : list Z) (σ : state) : state :=
  if scan NEGATIVE_INFINITY l then σ
  else State (<[arr := Array_sort d3_ascending l]> (heap σ))
             (console σ ++ [SlowSortTest; ArrayNotSorted (swapped_of l) l]).

(** The contents [ensureSorted] leaves in an array of contents [l]. *)
Definition sorted_form (l : list Z) : list Z :=
  if scan NEGATIVE_INFINITY l then l else Array_sort d3_ascending l.

(** The two-pointer merge on the elements still ahead of [p] and [q]. *)
Fixpoint merge_remaining (A : list Z) : list Z → list Z :=
  fix go (B : list Z) : list Z :=
    match A, B with
    | [], _ => []
    | _, [] => A
    | a :: A', b :: B' =>
        if a <? b then a :: merge_remaining A' B
        else if a >? b then go B'
        else merge_remaining A' B
    end.

(** The contents of the array [getRemaining] returns. *)
Definition remaining (A B : list Z) : list Z :=
  match A, B with
  | [], _ | _, [] => A
  | _, _ => merge_remaining (sorted_form A) (sorted_form B)
  end.

(** A consumer callback that also records, in call order, the values it is
    passed. *)
Definition recording {C : Type} (cb : Z → C → C) (v : Z) (s : C * list Z)
    : C * list Z :=
  (cb v s.1, s.2 ++ [v]).

(** A state holding the minuend at location 0 and the subtrahend at
    location 1, with nothing on the console. *)
Definition two_arrays (A B : list Z) : state :=
  State (<[1%nat := B]> (<[0%nat := A]> ∅)) [].

(** The contents of the array a call returned, and what the call left in the
    minuend, in the subtrahend and on the console. *)
Definition returned (m : result loc) : option (list Z) :=
  match m with
  | Ok r σ => heap σ !! r
  | _ => None
  end.

Definition left_behind {A} (m : result A)
    : option (option (list Z) * option (list Z) * list diagnostic) :=
  match m with
  | Ok _ σ => Some (heap σ !! 0%nat, heap σ !! 1%nat, console σ)
  | _ => None
  end.

(** ** [applyPerm] *)

(** [a[i] = v], for [i] up to the length of the array: an assignment at the
    length appends; one further on would leave a hole, which the arrays of
    the model cannot hold. *)
Definition array_set (a : loc) (i : nat) (v : Z) : M unit :=
  l ← array_contents a;
  if (i <? length l)%nat then array_store a (<[i := v]> l)
  else if (i =? length l)%nat then array_store a (l ++ [v])
  else fault.

(** [a[k]] for a number [k] read from another array: an element for an
    index of the array, [undefined], and so out of the model, otherwise. *)
Definition array_index (a : loc) (k : Z) : M Z :=
  if 0 <=? k then array_get a (Z.to_nat k) else fault.

(** [a.slice()]: a new array with the contents of [a]. *)
Definition array_slice (a : loc) : M loc :=
  l ← array_contents a;
  r ← array_new;
  array_store r l ;;
  ret r.

(** What [applyPerm] writes to the console: the two lengths that differ.  The
    console of [state] holding the diagnostics of the sortedness guard only,
    [applyPerm] hands its own lines back as its value. *)
Inductive warning : Type :=
  | LengthsDiffer (n m : nat).

(** The body of the [for] loop of [applyPerm], on [i]. *)
Definition applyPerm_for (arr perm tmp : loc) (i : nat) : M (turn nat unit) :=
  m ← array_length perm;
  if (i <? m)%nat then
    k ← array_get perm i;
    v ← array_index tmp k;
    array_set arr i v ;;
    ret (Next (i + 1)%nat)
  else ret (Leave tt).

Definition applyPerm (fuel : nat) (arr perm : loc) : M (list warning) :=
  tmp ← array_slice arr;
  n ← array_length tmp;
  m ← array_length perm;
  let warned := if negb (n =? m)%nat then [LengthsDiffer n m] else [] in
  loop (applyPerm_for arr perm tmp) fuel 0%nat ;;
  ret warned.

(** The element of [A] a number [k] selects, if any. *)
Definition pick (A : list Z) (k : Z) : option Z :=
  if 0 <=? k then A !! Z.to_nat k else None.

(** The elements of [A] the numbers of [P] select, in the order of [P]. *)
Definition selected (A P : list Z) : list Z :=
  (λ k, default 0 (pick A k)) <$> P.

(** The contents of the array [a] after a call. *)
Definition contents_after {R} (a : loc) (m : result R) : option (list Z) :=
  match m with
  | Ok _ σ => heap σ !! a
  | _ => None
  end.

(** ** [rectIntersect] *)

(** A rectangle, with integer coordinates and sizes. *)
Module rect.
Record t : Type := Rect { x : Z; y : Z; width : Z; height : Z }.
End rect.

(** [a + b] on numbers: the sum of two integers that are doubles, rounded to
    the nearest double, a tie going to the even significand.  Up to 2^53 in
    magnitude every integer is a double; above, the doubles between 2^(52+k)
    and 2^(53+k) are the multiples of 2^k.  A sum that overflows is, like
    the infinity of the code, beyond every double. *)
Definition double_add (a b : Z) : Z :=
  let s := a + b in
  let m := Z.abs s in
  if m <? 2 ^ 53 then s
  else
    let k := Z.log2 m - 52 in
    let q := m / 2 ^ k in
    let r := m mod 2 ^ k in
    let half := 2 ^ (k - 1) in
    let q' := if r <? half then q
              else if half <? r then q + 1
              else if Z.even q then q else q + 1 in
    Z.sgn s * (q' * 2 ^ k).

Definition rectIntersect (rectA rectB : rect.t) : bool :=
  if (rect.width rectA <=? 0) || (rect.height rectA <=? 0)
     || (rect.width rectB <=? 0) || (rect.height rectB <=? 0)
  then false
  else (double_add (rect.x rectB) (rect.width rectB) >? rect.x rectA)
       && (double_add (rect.y rectB) (rect.height rectB) >? rect.y rectA)
       && (rect.x rectB <? double_add (rect.x rectA) (rect.width rectA))
       && (rect.y rectB <? double_add (rect.y rectA) (rect.height rectA)).

(** The two sums [rectIntersect] takes of [r] are of magnitude at most 2^53,
    where the addition of the code is exact. *)
Definition exact_sums (r : rect.t) : Prop :=
  Z.abs (rect.x r + rect.width r) ≤ 2 ^ 53
  ∧ Z.abs (rect.y r + rect.height r) ≤ 2 ^ 53.

(** The unit cell at [(px, py)] lies in the rectangle [r]. *)
Definition covers (r : rect.t) (px py : Z) : Prop :=
  rect.x r ≤ px < rect.x r + rect.width r
  ∧ rect.y r ≤ py < rect.y r + rect.height r.

(** ** [convertClasses] and [isEmpty] *)

(** [obj[c] = v] for a primitive [v] on a plain object, as the own
    properties of the object: the key [__proto__] names the prototype
    accessor, which takes no primitive and adds no property. *)
Definition object_set {V} (c : string) (v : V) (obj : gmap string V)
    : gmap string V :=
  if decide (c = "__proto__") then obj else <[c := v]> obj.

(** [classes] is an array of class names or [null]. *)
Definition convertClasses (classes : option (list string)) : gmap string bool :=
  match classes with
  | None => ∅
  | Some l => foldl (λ obj c, object_set c true obj) ∅ l
  end.

(** [Object.keys(obj)], in no particular order. *)
Definition Object_keys {V} (obj : gmap string V) : list string :=
  fst <$> map_to_list obj.

Definition isEmpty {V} (obj : gmap string V) : bool :=
  (length (Object_keys obj) =? 0)%nat.

(** ** The [startsWith] substitute *)

Section strings.
Context {U : Type} `{EqDecision U}.

(** A string is the list of its code units.  [search] occurs in [s] at
    index [k]. *)
Definition occurs_at (s search : list U) (k : nat) : bool :=
  bool_decide (take (length search) (drop k s) = search).

(** The largest index at most [k] at which [search] occurs in [s]. *)
Fixpoint last_occurrence (s search : list U) (k : nat) : option nat :=
  if occurs_at s search k then Some k
  else match k with
       | O => None
       | S k' => last_occurrence s search k'
       end.

(** [s.lastIndexOf(search, position)] for an integer [position]: the search
    starts from [position] clamped between 0 and the length, and -1 stands
    for no occurrence. *)
Definition lastIndexOf (s search : list U) (position : Z) : Z :=
  let start := Z.to_nat (Z.max 0 (Z.min position (Z.of_nat (length s)))) in
  match last_occurrence s search start with
  | Some k => Z.of_nat k
  | None => -1
  end.

(** The substitute installed for [String.prototype.startsWith]; [position]
    is an integer, or [None] when the argument is left out. *)
Definition startsWith (s search : list U) (position : option Z) : bool :=
  let position := default 0 position in
  bool_decide (lastIndexOf s search position = position).
End strings.

(** ** [toFront] *)

(** The part of the document [toFront] works on: the parent element of each
    node that has one, and the list of children of each element. *)
Record document : Type := Document {
  parentElement : gmap nat nat;
  childNodes : gmap nat (list nat)
}.

(** The children of [p], none if it is not on record. *)
Definition children_of (d : document) (p : nat) : list nat :=
  default [] (childNodes d !! p).

(** [p.firstChild] *)
Definition firstChild (d : document) (p : nat) : option nat :=
  head (children_of d p).

(** Taking [obj] out of the children of its parent, if it has one. *)
Definition detach (obj : nat) (d : document) : document :=
  match parentElement d !! obj with
  | Some p =>
      Document (delete obj (parentElement d))
               (<[p := filter (λ c, c ≠ obj) (children_of d p)]> (childNodes d))
  | None => d
  end.

(** [cs] with [obj] put before its element [ref]. *)
Fixpoint insert_before (obj ref : nat) (cs : list nat) : list nat :=
  match cs with
  | [] => [obj]
  | c :: cs' =>
      if decide (c = ref) then obj :: c :: cs'
      else c :: insert_before obj ref cs'
  end.

(** Putting a node without parent among the children of [p], before the
    child [ref], or last when there is no [ref]. *)
Definition attach (p obj : nat) (ref : option nat) (d : document) : document :=
  let cs := children_of d p in
  let cs' := match ref with
             | Some r => insert_before obj r cs
             | None => cs ++ [obj]
             end in
  Document (<[obj := p]> (parentElement d)) (<[p := cs']> (childNodes d)).

(** [p.appendChild(obj)]: the node leaves its place and becomes the last
    child of [p]. *)
Definition appendChild (p obj : nat) (d : document) : document :=
  attach p obj None (detach obj d).

(** [p.insertBefore(obj, ref)]: without [ref] the node is appended; a [ref]
    that is no child of [p] makes the call throw; a node inserted before
    itself stays where it is; otherwise it leaves its place and is put
    before [ref]. *)
Definition insertBefore (p obj : nat) (ref : option nat) (d : document)
    : option document :=
  match ref with
  | None => Some (appendChild p obj d)
  | Some r =>
      if decide (parentElement d !! r = Some p) then
        if decide (r = obj) then Some d
        else Some (attach p obj (Some r) (detach obj d))
      else None
  end.

(** The callback of [sel.each] in [toFront], on the node [obj]; a node
    without parent element makes the call on [null] throw. *)
Definition toFront_each (toFront : bool) (obj : nat) (d : document)
    : option document :=
  p ← parentElement d !! obj;
  if toFront then Some (appendChild p obj d)
  else insertBefore p obj (firstChild d p) d.

(** [sel] is the list of the nodes of the selection, in its order. *)
Definition toFront (sel : list nat) (toFront : bool) (d : document)
    : option document :=
  foldl (λ d obj, d ≫= toFront_each toFront obj) (Some d) sel.

(** A document of one element, 0, with the children 1, 2, 3 and 4. *)
Definition four_children : document :=
  Document (list_to_map [(1, 0); (2, 0); (3, 0); (4, 0)]%nat)
           (list_to_map [(0, [1; 2; 3; 4])]%nat).

(** ** [getQueryStrings] and [flatMap] *)

(** [s.split(sep)] for a separator of one character: the pieces of [s]
    between the occurrences of [sep], at least one piece. *)
Fixpoint split_on (sep : ascii) (s : string) : list string :=
  match s with
  | EmptyString => [EmptyString]
  | String c s' =>
      if decide (c = sep) then EmptyString :: split_on sep s'
      else match split_on sep s' with
           | piece :: pieces => String c piece :: pieces
           | [] => [String c EmptyString]
           end
  end.

(** [s.replace(/\+/g, " ")] *)
Fixpoint replace_plus (s : string) : string :=
  match s with
  | EmptyString => EmptyString
  | String c s' =>
      String (if decide (c = "+"%char) then " "%char else c) (replace_plus s')
  end.

(** [s.substring(1)] *)
Definition substring_1 (s : string) : string :=
  match s with
  | EmptyString => EmptyString
  | String _ s' => s'
  end.

(** The character [c] occurs in [s]. *)
Fixpoint contains (c : ascii) (s : string) : bool :=
  match s with
  | EmptyString => false
  | String c' s' => bool_decide (c' = c) || contains c s'
  end.

Section query.
(** [decodeURIComponent], which throws on a malformed escape sequence. *)
Variable decodeURIComponent : string → option string.

Definition decode (s : string) : option string :=
  decodeURIComponent (replace_plus s).

(** The callback of [keyValues.forEach], on [assoc]; [None] when a decoding
    throws. *)
Definition getQueryStrings_each (e : string) (assoc : gmap string string)
    : option (gmap string string) :=
  let key := split_on "="%char e in
  if (1 <? length key)%nat then
    k ← key !! 0%nat ≫= decode;
    v ← key !! 1%nat ≫= decode;
    Some (object_set k v assoc)
  else Some assoc.

(** [search] is [location.search]. *)
Definition getQueryStrings (search : string) : option (gmap string string) :=
  let queryString := substring_1 search in
  let keyValues := split_on "&"%char queryString in
  foldl (λ assoc e, assoc ≫= getQueryStrings_each e) (Some ∅) keyValues.
End query.

(** [fun] is called with the element, its index and the array; the lists it
    returns are concatenated. *)
Definition flatMap {A B} (arr : list A) (fun_ : A → nat → list A → list B)
    : list B :=
  concat (imap (λ i a, fun_ a i arr) arr).

(** ** The functions on small inputs *)

Example getRemaining_1_2_3_4_5_minus_2_4 :
  returned (getRemaining 8 0%nat 1%nat (two_arrays [1; 2; 3; 4; 5] [2; 4]))
  = Some [1; 3; 5].
Proof. reflexivity. Qed.

Example getRemaining_5_3_1_minus_1 :
  let run := getRemaining 5 0%nat 1%nat (two_arrays [5; 3; 1] [1]) in
  returned run = Some [3; 5]
  ∧ left_behind run
    = Some (Some [1; 3; 5], Some [1],
            [SlowSortTest; ArrayNotSorted [Num 5; Num 3; Num 1] [5; 3; 1]]).
Proof. split; reflexivity. Qed.

Example getRemaining_empty_minus_1_2 :
  getRemaining 0 0%nat 1%nat (two_arrays [] [1; 2])
  = Ok 0%nat (two_arrays [] [1; 2]).
Proof. reflexivity. Qed.

Example getRemainingIter_1_2_3_4_5_minus_2_4 :
  let run := getRemainingIter (λ v calls, calls ++ [v]) 8 0%nat 1%nat []
               (two_arrays [1; 2; 3; 4; 5] [2; 4]) in
  run = Ok [1; 3; 5] (two_arrays [1; 2; 3; 4; 5] [2; 4]).
Proof. reflexivity. Qed.

Example getRemaining_out_of_fuel :
  getRemaining 3 0%nat 1%nat (two_arrays [1; 2; 3] [4]) = OutOfFuel.
Proof. reflexivity. Qed.

Example applyPerm_2_0_1 :
  contents_after 0%nat (applyPerm 4 0%nat 1%nat (two_arrays [10; 20; 30] [2; 0; 1]))
  = Some [30; 10; 20].
Proof. reflexivity. Qed.

Example applyPerm_longer_perm :
  applyPerm 5 0%nat 1%nat (two_arrays [10; 20] [1; 1; 0; 0])
  = Ok [LengthsDiffer 2 4]
       (set_array 2%nat [10; 20] (two_arrays [20; 20; 10; 10] [1; 1; 0; 0])).
Proof. reflexivity. Qed.

Example applyPerm_index_out_of_range :
  applyPerm 4 0%nat 1%nat (two_arrays [10; 20; 30] [2; 3; 1]) = Fault.
Proof. reflexivity. Qed.

Example requireSorted_run_of_swapped :
  swapped_of [1; 5; 3; 2; 7; 6; 8] = [Num 5; Num 3; Num 2; Num 7; Num 6].
Proof. reflexivity. Qed.

Example rectIntersect_overlapping :
  rectIntersect (rect.Rect 0 0 2 2) (rect.Rect 1 1 2 2) = true.
Proof. reflexivity. Qed.

Example rectIntersect_sharing_an_edge :
  rectIntersect (rect.Rect 0 0 2 2) (rect.Rect 2 0 2 2) = false.
Proof. reflexivity. Qed.

Example rectIntersect_rounded_sum :
  rectIntersect (rect.Rect (2 ^ 53) 0 1 1) (rect.Rect (2 ^ 53) 0 1 1) = false.
Proof. reflexivity. Qed.

Example convertClasses_a_proto_b_a :
  convertClasses (Some ["a"; "__proto__"; "b"; "a"])
  = {[ "a" := true; "b" := true ]}.
Proof. reflexivity. Qed.

Example startsWith_native_differs :
  startsWith [1; 2; 3]%nat [9]%nat (Some (-1)) = true
  ∧ startsWith [1; 2; 3]%nat [] (Some 4) = false.
Proof. split; reflexivity. Qed.

Example toFront_3_1_to_back :
  childNodes <$> toFront [3; 1]%nat true four_children
  = Some {[ 0%nat := [2; 4; 3; 1]%nat ]}.
Proof. reflexivity. Qed.

Example toFront_without_parent :
  toFront [3; 7; 1]%nat true four_children = None.
Proof. reflexivity. Qed.

Example getQueryStrings_last_pair_decides :
  getQueryStrings Some "?a=1+2&b=x=y&c&a=3"
  = Some {[ "a" := "3"; "b" := "x" ]}.
Proof. reflexivity. Qed.

Example getQueryStrings_throws :
  getQueryStrings (λ s, if decide (s = "%") then None else Some s)
    "?a=1&b=%&c=2"
  = None.
Proof. reflexivity. Qed.

Example flatMap_with_index :
  flatMap [10; 20; 30] (λ a i _, [a; Z.of_nat i]) = [10; 0; 20; 1; 30; 2].
Proof. reflexivity. Qed.

(** ** Running the monad *)

Lemma bind_Ok {A B} (m : M A) (f : A → M B) σ a σ' :
  m σ = Ok a σ' → (m ≫= f) σ = f a σ'.
Proof. intros H. unfold mbind, M_bind. by rewrite H. Qed.

Lemma array_contents_Ok σ a l :
  heap σ !! a = Some l → array_contents a σ = Ok l σ.
Proof. intros H. unfold array_contents. by rewrite H. Qed.

Lemma array_length_Ok σ a l :
  heap σ !! a = Some l → array_length a σ = Ok (length l) σ.
Proof.
  intros H. unfold array_length.
  by rewrite (bind_Ok _ _ _ _ _ (array_contents_Ok _ _ _ H)).
Qed.

Lemma array_get_Ok σ a l i v :
  heap σ !! a = Some l → l !! i = Some v → array_get a i σ = Ok v σ.
Proof.
  intros H Hi. unfold array_get.
  rewrite (bind_Ok _ _ _ _ _ (array_contents_Ok _ _ _ H)). by rewrite Hi.
Qed.

Lemma array_push_Ok σ a l v :
  heap σ !! a = Some l →
  array_push a v σ = Ok tt (set_array a (l ++ [v]) σ).
Proof.
  intros H. unfold array_push.
  by rewrite (bind_Ok _ _ _ _ _ (array_contents_Ok _ _ _ H)).
Qed.

Lemma array_sort_Ok σ a l cmp :
  heap σ !! a = Some l →
  array_sort cmp a σ = Ok tt (set_array a (Array_sort cmp l) σ).
Proof.
  intros H. unfold array_sort.
  by rewrite (bind_Ok _ _ _ _ _ (array_contents_Ok _ _ _ H)).
Qed.

Lemma loop_S {St R} (body : St → M (turn St R)) fuel s :
  loop body (S fuel) s
  = (body s ≫= λ t, match t with
                     | Next s' => loop body fuel s'
                     | Leave r => ret r
                     end).
Proof. done. Qed.

Lemma set_array_lookup a l σ : heap (set_array a l σ) !! a = Some l.
Proof. apply lookup_insert_eq. Qed.

Lemma set_array_lookup_ne a b l σ :
  a ≠ b → heap (set_array a l σ) !! b = heap σ !! b.
Proof. intros. by apply lookup_insert_ne. Qed.

Lemma set_array_set_array a l l' σ :
  set_array a l' (set_array a l σ) = set_array a l' σ.
Proof. unfold set_array. simpl. by rewrite insert_insert_eq. Qed.

Lemma set_array_id a l σ : heap σ !! a = Some l → set_array a l σ = σ.
Proof. intros H. destruct σ. unfold set_array. simpl in *. by rewrite insert_id. Qed.

Lemma bind_run {A B} (m : M A) (f : A → M B) σ :
  (m ≫= f) σ = match m σ with
               | Ok a σ' => f a σ'
               | Fault => Fault
               | OutOfFuel => OutOfFuel
               end.
Proof. done. Qed.

Lemma ret_run {A} (a : A) σ : (ret a : M A) σ = Ok a σ.
Proof. done. Qed.

(** Running the statements whose outcome is known from the hypotheses. *)
Ltac run :=
  repeat first
    [ rewrite bind_run
    | rewrite ret_run
    | erewrite array_length_Ok by eassumption
    | erewrite array_get_Ok by eassumption
    | erewrite array_push_Ok by eassumption
    | erewrite array_contents_Ok by eassumption
    | erewrite array_sort_Ok by eassumption
    | progress cbn beta iota
    | progress cbn [length Nat.eqb andb] ].

(** ** Ascending sequences and the sort *)

Lemma ascending_cons x l : ascending (x :: l) ↔ HdRel Z.le x l ∧ ascending l.
Proof.
  split.
  - intros H. split.
    + destruct l as [|y l]; constructor. by apply (H 0%nat).
    + intros i a b Ha Hb. by apply (H (S i)).
  - intros [Hhd Hl] [|i] a b Ha Hb; simplify_eq/=.
    + destruct l; simplify_eq/=. by inversion Hhd.
    + by apply (Hl i).
Qed.

Lemma ascending_Sorted l : ascending l ↔ Sorted Z.le l.
Proof.
  induction l as [|x l IH].
  - split; [constructor | by intros _ [|?] ???].
  - rewrite ascending_cons, IH. split.
    + intros [??]. by constructor.
    + intros H. by inversion H.
Qed.

Lemma ascending_StronglySorted l : ascending l ↔ StronglySorted Z.le l.
Proof.
  rewrite ascending_Sorted. split.
  - apply Sorted_StronglySorted. intros ???; lia.
  - apply StronglySorted_Sorted.
Qed.

Lemma scan_spec prev l :
  scan prev l = true ↔
  (∀ p, prev = Num p → HdRel Z.le p l) ∧ Sorted Z.le l.
Proof.
  revert prev. induction l as [|v l IH]; intros prev; cbn [scan].
  - split; [|done]. intros _. split; constructor.
  - destruct (number_lt (Num v) prev) eqn:Hlt.
    + split; [done|]. intros [Hhd _]. destruct prev as [|p]; [done|].
      simpl in Hlt. specialize (Hhd p eq_refl). inversion Hhd. lia.
    + rewrite IH. split.
      * intros [Hhd Hl]. split.
        -- intros p ->. constructor. simpl in Hlt. lia.
        -- constructor; [done|]. by apply Hhd.
      * intros [_ Hl]. inversion Hl; subst. split; [|done].
        by intros p [= <-].
Qed.

Lemma scan_ascending l : scan NEGATIVE_INFINITY l = true ↔ ascending l.
Proof.
  rewrite scan_spec, ascending_Sorted. split; [by intros [_ ?]|done].
Qed.

Lemma d3_ascending_pos x y : (0 <? d3_ascending x y) = (y <? x).
Proof.
  unfold d3_ascending.
  destruct (x <? y) eqn:?, (x >? y) eqn:?, (y <? x) eqn:?; simpl; lia.
Qed.

Lemma sort_insert_Permutation cmp x l : sort_insert cmp x l ≡ₚ x :: l.
Proof.
  induction l as [|y l IH]; simpl; [done|].
  destruct (0 <? cmp x y); [|done]. by rewrite IH, Permutation_swap.
Qed.

Lemma Array_sort_Permutation cmp l : Array_sort cmp l ≡ₚ l.
Proof.
  induction l as [|x l IH]; simpl; [done|].
  by rewrite sort_insert_Permutation, IH.
Qed.

Lemma sort_insert_StronglySorted x l :
  StronglySorted Z.le l → StronglySorted Z.le (sort_insert d3_ascending x l).
Proof.
  induction 1 as [|y l Hl IH Hy]; simpl.
  - repeat constructor.
  - rewrite d3_ascending_pos. destruct (y <? x) eqn:Hyx.
    + constructor; [done|]. rewrite sort_insert_Permutation.
      constructor; [lia|done].
    + constructor; [by constructor|].
      constructor; [lia|]. eapply Forall_impl; [done|]. simpl. lia.
Qed.

Lemma Array_sort_StronglySorted l :
  StronglySorted Z.le (Array_sort d3_ascending l).
Proof.
  induction l; simpl; [constructor|]. by apply sort_insert_StronglySorted.
Qed.

Lemma sorted_form_ascending l : ascending (sorted_form l).
Proof.
  unfold sorted_form. destruct (scan _ l) eqn:H.
  - by apply scan_ascending.
  - apply ascending_StronglySorted, Array_sort_StronglySorted.
Qed.

Lemma sorted_form_Permutation l : sorted_form l ≡ₚ l.
Proof.
  unfold sorted_form. destruct (scan _ l); [done|].
  apply Array_sort_Permutation.
Qed.

Lemma sorted_form_id l : ascending l → sorted_form l = l.
Proof. intros H%scan_ascending. unfold sorted_form. by rewrite H. Qed.

(** ** [requireSorted] and [ensureSorted] *)

Lemma requireSorted_each_swapped l prev run sw :
  scan prev l = false ∨ sw ≠ [] →
  (foldl requireSorted_each (prev, run, sw) l).2 ≠ [].
Proof.
  revert prev run sw. induction l as [|v l IH]; intros prev run sw H.
  - by destruct H.
  - cbn [scan] in H. cbn [foldl requireSorted_each]. destruct (number_lt (Num v) prev).
    + apply IH. right. by intros [_ [=]]%app_eq_nil.
    + by apply IH.
Qed.

Lemma swapped_of_disorder l :
  scan NEGATIVE_INFINITY l = false → swapped_of l ≠ [].
Proof. intros H. apply requireSorted_each_swapped. by left. Qed.

Lemma requireSorted_run σ arr l :
  heap σ !! arr = Some l →
  scan NEGATIVE_INFINITY l = false →
  requireSorted arr σ = Ok tt (ensureSorted_post arr l σ).
Proof.
  intros Harr Hscan. unfold requireSorted, ensureSorted_post. rewrite Hscan.
  erewrite bind_Ok by done. simpl.
  erewrite bind_Ok by (by apply array_contents_Ok).
  pose proof (swapped_of_disorder l Hscan) as Hsw. unfold swapped_of in *.
  destruct (foldl _ _ l) as [[prev run] sw]. simpl in *.
  destruct sw as [|s sw]; [done|]. simpl.
  erewrite bind_Ok by done. simpl.
  erewrite array_sort_Ok by done. simpl. by rewrite <-(assoc_L (++)).
Qed.

Lemma ensureSorted_loop fuel σ arr l i prev :
  heap σ !! arr = Some l →
  (length l - i < fuel)%nat →
  loop (ensureSorted_turn arr) fuel (i, prev) σ
  = if scan prev (drop i l) then Ok tt σ else requireSorted arr σ.
Proof.
  intros Harr. revert i prev.
  induction fuel as [|fuel IH]; intros i prev Hfuel; [lia|].
  rewrite loop_S. set (rest := loop _ fuel). unfold ensureSorted_turn. run.
  destruct (i <? length l)%nat eqn:Hi.
  - apply Nat.ltb_lt, lookup_lt_is_Some in Hi as [v Hv]. run.
    rewrite (drop_S _ _ _ Hv). cbn [scan].
    destruct (number_lt (Num v) prev) eqn:Hlt; run.
    + by destruct (requireSorted arr σ) as [[] ?| |].
    + subst rest. rewrite IH by (apply lookup_lt_Some in Hv; lia).
      by replace (i + 1)%nat with (S i) by lia.
  - apply Nat.ltb_ge in Hi. rewrite drop_ge by done. by run.
Qed.

Lemma ensureSorted_run fuel σ arr l :
  heap σ !! arr = Some l →
  (length l < fuel)%nat →
  ensureSorted fuel arr σ = Ok tt (ensureSorted_post arr l σ).
Proof.
  intros Harr Hfuel. unfold ensureSorted. run.
  destruct l as [|v l]; simpl; [done|].
  rewrite (ensureSorted_loop _ _ _ (v :: l)) by (simpl; done || lia).
  rewrite drop_0. unfold ensureSorted_post.
  destruct (scan _ _) eqn:Hscan; [done|].
  rewrite (requireSorted_run _ _ (v :: l)) by done.
  unfold ensureSorted_post. by rewrite Hscan.
Qed.

Lemma ensureSorted_post_lookup arr l σ :
  heap σ !! arr = Some l →
  heap (ensureSorted_post arr l σ) !! arr = Some (sorted_form l).
Proof.
  intros H. unfold ensureSorted_post, sorted_form.
  destruct (scan _ l); [done|]. apply lookup_insert_eq.
Qed.

Lemma ensureSorted_post_lookup_ne arr l σ a :
  a ≠ arr → heap (ensureSorted_post arr l σ) !! a = heap σ !! a.
Proof.
  intros H. unfold ensureSorted_post.
  destruct (scan _ l); [done|]. by apply lookup_insert_ne.
Qed.

Lemma ensureSorted_post_id arr l σ :
  ascending l → ensureSorted_post arr l σ = σ.
Proof. intros H%scan_ascending. unfold ensureSorted_post. by rewrite H. Qed.

(** ** The merge *)

Lemma merge_remaining_nil_l B : merge_remaining [] B = [].
Proof. by destruct B. Qed.

Lemma merge_remaining_nil_r A : merge_remaining A [] = A.
Proof. by destruct A. Qed.

Lemma merge_remaining_cons a A b B :
  merge_remaining (a :: A) (b :: B)
  = if a <? b then a :: merge_remaining A (b :: B)
    else if a >? b then merge_remaining (a :: A) B
    else merge_remaining A (b :: B).
Proof. done. Qed.

Lemma merge_remaining_done A B p q :
  (p <? length A)%nat && (q <? length B)%nat = false →
  merge_remaining (drop p A) (drop q B) = drop p A.
Proof.
  intros [H|H]%andb_false_iff; apply Nat.ltb_ge in H.
  - by rewrite (drop_ge A), merge_remaining_nil_l.
  - by rewrite (drop_ge B), merge_remaining_nil_r.
Qed.

Lemma getRemaining_while_loop fuel σ ixs minus res A B acc p q :
  heap σ !! ixs = Some A →
  heap σ !! minus = Some B →
  heap σ !! res = Some acc →
  res ≠ ixs → res ≠ minus →
  (length A - p + (length B - q) < fuel)%nat →
  ∃ p' q' emitted,
    loop (getRemaining_while ixs minus res) fuel (p, q) σ
    = Ok (p', q') (set_array res (acc ++ emitted) σ)
    ∧ emitted ++ drop p' A = merge_remaining (drop p A) (drop q B)
    ∧ (p' <? length A)%nat && (q' <? length B)%nat = false.
Proof.
  intros Hixs Hminus Hres Hri Hrm. revert σ acc p q Hixs Hminus Hres.
  induction fuel as [|fuel IH]; intros σ acc p q Hixs Hminus Hres Hfuel; [lia|].
  rewrite loop_S. set (rest := loop _ fuel). unfold getRemaining_while. run.
  destruct ((p <? length A)%nat && (q <? length B)%nat) eqn:Hpq.
  - apply andb_true_iff in Hpq as [Hp Hq].
    apply Nat.ltb_lt in Hp, Hq.
    destruct (lookup_lt_is_Some_2 _ _ Hp) as [cur Hcur].
    destruct (lookup_lt_is_Some_2 _ _ Hq) as [m Hm].
    run. rewrite (drop_S _ _ _ Hcur), (drop_S _ _ _ Hm), merge_remaining_cons.
    rewrite <-(drop_S _ _ _ Hcur), <-(drop_S _ _ _ Hm).
    replace (S p) with (p + 1)%nat by lia. replace (S q) with (q + 1)%nat by lia.
    subst rest. destruct (cur <? m); [|destruct (cur >? m)]; run.
    + destruct (IH (set_array res (acc ++ [cur]) σ) (acc ++ [cur]) (p + 1)%nat q)
        as (p' & q' & emitted & -> & <- & Hexit).
      * by rewrite set_array_lookup_ne.
      * by rewrite set_array_lookup_ne.
      * apply set_array_lookup.
      * lia.
      * exists p', q', (cur :: emitted). split; [|done].
        by rewrite set_array_set_array, <-(assoc_L (++)).
    + destruct (IH σ acc p (q + 1)%nat) as (p' & q' & emitted & -> & <- & Hexit);
        [done..|lia|]. by exists p', q', emitted.
    + destruct (IH σ acc (p + 1)%nat q) as (p' & q' & emitted & -> & <- & Hexit);
        [done..|lia|]. by exists p', q', emitted.
  - exists p, q, []. rewrite app_nil_r, (set_array_id _ _ _ Hres).
    by rewrite merge_remaining_done.
Qed.

Lemma getRemaining_for_loop fuel σ ixs res A acc p :
  heap σ !! ixs = Some A →
  heap σ !! res = Some acc →
  res ≠ ixs →
  (length A - p < fuel)%nat →
  loop (getRemaining_for ixs res) fuel p σ
  = Ok tt (set_array res (acc ++ drop p A) σ).
Proof.
  intros Hixs Hres Hri. revert σ acc p Hixs Hres.
  induction fuel as [|fuel IH]; intros σ acc p Hixs Hres Hfuel; [lia|].
  rewrite loop_S. set (rest := loop _ fuel). unfold getRemaining_for. run.
  destruct (p <? length A)%nat eqn:Hp.
  - apply Nat.ltb_lt in Hp. destruct (lookup_lt_is_Some_2 _ _ Hp) as [v Hv].
    run. subst rest. rewrite (IH _ (acc ++ [v])).
    + rewrite set_array_set_array, (drop_S _ _ _ Hv), <-(assoc_L (++)).
      by replace (p + 1)%nat with (S p) by lia.
    + by rewrite set_array_lookup_ne.
    + apply set_array_lookup.
    + lia.
  - apply Nat.ltb_ge in Hp. run.
    by rewrite drop_ge, app_nil_r, (set_array_id _ _ _ Hres).
Qed.

Section iter_loops.
Context {C : Type} (cb : Z → C → C).

Lemma getRemainingIter_while_loop fuel σ ixs minus A B p q c :
  heap σ !! ixs = Some A →
  heap σ !! minus = Some B →
  (length A - p + (length B - q) < fuel)%nat →
  ∃ p' q' emitted,
    loop (getRemainingIter_while cb ixs minus) fuel (p, q, c) σ
    = Ok (p', q', foldl (λ c v, cb v c) c emitted) σ
    ∧ emitted ++ drop p' A = merge_remaining (drop p A) (drop q B)
    ∧ (p' <? length A)%nat && (q' <? length B)%nat = false.
Proof.
  intros Hixs Hminus. revert p q c.
  induction fuel as [|fuel IH]; intros p q c Hfuel; [lia|].
  rewrite loop_S. set (rest := loop _ fuel).
  unfold getRemainingIter_while. run.
  destruct ((p <? length A)%nat && (q <? length B)%nat) eqn:Hpq.
  - apply andb_true_iff in Hpq as [Hp Hq].
    apply Nat.ltb_lt in Hp, Hq.
    destruct (lookup_lt_is_Some_2 _ _ Hp) as [cur Hcur].
    destruct (lookup_lt_is_Some_2 _ _ Hq) as [m Hm].
    run. rewrite (drop_S _ _ _ Hcur), (drop_S _ _ _ Hm), merge_remaining_cons.
    rewrite <-(drop_S _ _ _ Hcur), <-(drop_S _ _ _ Hm).
    replace (S p) with (p + 1)%nat by lia.
    replace (S q) with (q + 1)%nat by lia.
    subst rest. destruct (cur <? m); [|destruct (cur >? m)]; run.
    + destruct (IH (p + 1)%nat q (cb cur c)) as (p' & q' & emitted & -> & <- & Hexit);
        [lia|]. by exists p', q', (cur :: emitted).
    + destruct (IH p (q + 1)%nat c) as (p' & q' & emitted & -> & <- & Hexit);
        [lia|]. by exists p', q', emitted.
    + destruct (IH (p + 1)%nat q c) as (p' & q' & emitted & -> & <- & Hexit);
        [lia|]. by exists p', q', emitted.
  - exists p, q, []. by rewrite merge_remaining_done.
Qed.

Lemma getRemainingIter_for_loop fuel σ ixs A p c :
  heap σ !! ixs = Some A →
  (length A - p < fuel)%nat →
  loop (getRemainingIter_for cb ixs) fuel (p, c) σ
  = Ok (foldl (λ c v, cb v c) c (drop p A)) σ.
Proof.
  intros Hixs. revert p c.
  induction fuel as [|fuel IH]; intros p c Hfuel; [lia|].
  rewrite loop_S. set (rest := loop _ fuel).
  unfold getRemainingIter_for. run.
  destruct (p <? length A)%nat eqn:Hp.
  - apply Nat.ltb_lt in Hp. destruct (lookup_lt_is_Some_2 _ _ Hp) as [v Hv].
    run. subst rest. rewrite IH by lia. rewrite (drop_S _ _ _ Hv).
    by replace (p + 1)%nat with (S p) by lia.
  - apply Nat.ltb_ge in Hp. run. by rewrite drop_ge.
Qed.
End iter_loops.

(** ** [getRemaining] and [getRemainingIter] *)

Lemma sorted_form_length l : length (sorted_form l) = length l.
Proof. by rewrite sorted_form_Permutation. Qed.

Lemma ensureSorted_twice fuel σ ixs minus A B :
  heap σ !! ixs = Some A →
  heap σ !! minus = Some B →
  (length A < fuel)%nat → (length B < fuel)%nat →
  ∃ σ1 σ2,
    ensureSorted fuel ixs σ = Ok tt σ1
    ∧ ensureSorted fuel minus σ1 = Ok tt σ2
    ∧ heap σ2 !! ixs = Some (sorted_form A)
    ∧ heap σ2 !! minus = Some (sorted_form B)
    ∧ (∀ a, a ≠ ixs → a ≠ minus → heap σ2 !! a = heap σ !! a)
    ∧ (ascending A → ascending B → σ1 = σ ∧ σ2 = σ).
Proof.
  intros Hixs Hminus HA HB.
  pose proof (ensureSorted_post_lookup _ _ _ Hixs) as Hixs1.
  destruct (decide (minus = ixs)) as [->|Hne].
  - assert (B = A) as -> by congruence.
    exists (ensureSorted_post ixs A σ), (ensureSorted_post ixs A σ).
    split; [by apply ensureSorted_run|]. split.
    { rewrite (ensureSorted_run _ _ _ (sorted_form A)); [|done|].
      - by rewrite ensureSorted_post_id by apply sorted_form_ascending.
      - by rewrite sorted_form_length. }
    split_and!; try done.
    + intros a Ha _. by apply ensureSorted_post_lookup_ne.
    + intros HA' _. by rewrite ensureSorted_post_id.
  - assert (heap (ensureSorted_post ixs A σ) !! minus = Some B) as Hminus1.
    { by rewrite ensureSorted_post_lookup_ne. }
    exists (ensureSorted_post ixs A σ),
      (ensureSorted_post minus B (ensureSorted_post ixs A σ)).
    split; [by apply ensureSorted_run|].
    split; [by apply ensureSorted_run|]. split_and!.
    + by rewrite ensureSorted_post_lookup_ne.
    + by apply ensureSorted_post_lookup.
    + intros a ??. by rewrite !ensureSorted_post_lookup_ne.
    + intros HA' HB'. by rewrite !ensureSorted_post_id.
Qed.

Lemma fresh_array_lookup σ : heap σ !! fresh (dom (heap σ)) = None.
Proof. apply not_elem_of_dom, is_fresh. Qed.

Lemma fresh_array_ne σ a l : heap σ !! a = Some l → fresh (dom (heap σ)) ≠ a.
Proof. intros H <-. by rewrite fresh_array_lookup in H. Qed.

(** The early return: either array is empty. *)
Lemma getRemaining_early fuel σ ixs minus A :
  heap σ !! ixs = Some A →
  A = [] ∨ heap σ !! minus = Some [] →
  getRemaining fuel ixs minus σ = Ok ixs σ.
Proof.
  intros Hixs HAB. unfold getRemaining. run.
  destruct A as [|a A]; [by run|]. run.
  destruct HAB as [|Hminus]; [done|]. by run.
Qed.

Lemma getRemainingIter_early {C} (cb : Z → C → C) fuel σ ixs minus A c :
  heap σ !! ixs = Some A →
  A = [] ∨ heap σ !! minus = Some [] →
  getRemainingIter cb fuel ixs minus c σ = Ok (foldl (λ c v, cb v c) c A) σ.
Proof.
  intros Hixs HAB. unfold getRemainingIter. run.
  destruct A as [|a A]; [by run|]. run.
  destruct HAB as [|Hminus]; [done|]. by run.
Qed.

(** Past the early return: both arrays are checked, repaired where needed,
    and merged. *)
Lemma getRemaining_merge fuel σ ixs minus A B :
  heap σ !! ixs = Some A →
  heap σ !! minus = Some B →
  A ≠ [] → B ≠ [] →
  (length A + length B < fuel)%nat →
  ∃ σ' r,
    heap σ' !! ixs = Some (sorted_form A)
    ∧ heap σ' !! minus = Some (sorted_form B)
    ∧ (∀ a, a ≠ ixs → a ≠ minus → heap σ' !! a = heap σ !! a)
    ∧ (ascending A → ascending B → σ' = σ)
    ∧ heap σ' !! r = None
    ∧ getRemaining fuel ixs minus σ
      = Ok r (set_array r (remaining A B) σ')
    ∧ ∀ C (cb : Z → C → C) c,
        getRemainingIter cb fuel ixs minus c σ
        = Ok (foldl (λ c v, cb v c) c (remaining A B)) σ'.
Proof.
  intros Hixs Hminus HA HB Hfuel.
  destruct (ensureSorted_twice fuel σ ixs minus A B)
    as (σ1 & σ2 & Hes1 & Hes2 & Hixs2 & Hminus2 & Hframe & Hid);
    [done|done|lia|lia|].
  set (r := fresh (dom (heap σ2))).
  assert (remaining A B = merge_remaining (sorted_form A) (sorted_form B))
    as Hrem by (by destruct A, B).
  exists σ2, r. split_and!; [done|done|done|by intros ??; apply Hid| |..].
  { apply fresh_array_lookup. }
  - unfold getRemaining. run.
    destruct A as [|a A], B as [|b B]; try done. run.
    rewrite Hes1. run. rewrite Hes2. run. unfold array_new at 1. fold r. run.
    assert (r ≠ ixs) as Hri by (by eapply fresh_array_ne).
    assert (r ≠ minus) as Hrm by (by eapply fresh_array_ne).
    destruct (getRemaining_while_loop fuel (set_array r [] σ2) ixs minus r
                (sorted_form (a :: A)) (sorted_form (b :: B)) [] 0%nat 0%nat)
      as (p' & q' & emitted & -> & Hemitted & _).
    { by rewrite set_array_lookup_ne. }
    { by rewrite set_array_lookup_ne. }
    { apply set_array_lookup. }
    { done. } { done. }
    { rewrite !sorted_form_length. cbn [length] in *. lia. }
    run. rewrite set_array_set_array.
    rewrite (getRemaining_for_loop fuel _ ixs r (sorted_form (a :: A))
               ([] ++ emitted) p'); first last.
    { rewrite sorted_form_length. cbn [length] in *. lia. }
    { done. }
    { apply set_array_lookup. }
    { by rewrite set_array_lookup_ne. }
    run. rewrite set_array_set_array. simpl app.
    by rewrite Hemitted, !drop_0, Hrem.
  - intros C cb c. unfold getRemainingIter. run.
    destruct A as [|a A], B as [|b B]; try done. run.
    rewrite Hes1. run. rewrite Hes2. run.
    destruct (getRemainingIter_while_loop cb fuel σ2 ixs minus
                (sorted_form (a :: A)) (sorted_form (b :: B)) 0%nat 0%nat c)
      as (p' & q' & emitted & -> & Hemitted & _); [done|done| |].
    { rewrite !sorted_form_length. cbn [length] in *. lia. }
    run. rewrite (getRemainingIter_for_loop cb fuel _ ixs
                    (sorted_form (a :: A))); first last.
    { rewrite sorted_form_length. cbn [length] in *. lia. }
    { done. }
    by rewrite <-foldl_app, Hemitted, !drop_0, Hrem.
Qed.

(** ** The merge on ascending sequences *)

Lemma filter_ext_Forall (P Q : Z → Prop)
    `{!∀ x, Decision (P x), !∀ x, Decision (Q x)} (l : list Z) :
  Forall (λ x, P x ↔ Q x) l → filter P l = filter Q l.
Proof.
  induction 1 as [|x l Hx Hl IH]; [done|].
  rewrite !filter_cons, IH. apply decide_ext, Hx.
Qed.

Lemma filter_not_elem_of_nil (l : list Z) : filter (λ x, x ∉ []) l = l.
Proof.
  induction l as [|x l IH]; [done|].
  rewrite filter_cons_True by apply not_elem_of_nil. by rewrite IH.
Qed.

Lemma merge_remaining_filter A B :
  StronglySorted Z.le A → StronglySorted Z.le B →
  merge_remaining A B = filter (λ x, x ∉ B) A.
Proof.
  intros HA. revert B. induction HA as [|a A HA IHA Ha]; intros B HB.
  { by rewrite merge_remaining_nil_l. }
  induction HB as [|b B HB IHB Hb].
  { by rewrite merge_remaining_nil_r, filter_not_elem_of_nil. }
  rewrite merge_remaining_cons.
  destruct (a <? b) eqn:Hab; [|destruct (a >? b) eqn:Hba].
  - rewrite IHA by (by constructor). rewrite filter_cons_True; [done|].
    intros [->|Hin]%elem_of_cons; [lia|].
    rewrite Forall_forall in Hb. specialize (Hb _ Hin). lia.
  - rewrite IHB. apply filter_ext_Forall.
    apply Forall_forall. intros x Hx. rewrite elem_of_cons.
    assert (a ≤ x).
    { apply elem_of_cons in Hx as [->|Hx]; [lia|].
      rewrite Forall_forall in Ha. by apply Ha. }
    split; [|tauto]. intros ? [->|?]; [lia|done].
  - assert (a = b) as -> by lia.
    rewrite IHA by (by constructor). rewrite filter_cons_False; [done|].
    intros H. apply H. by left.
Qed.

Lemma filter_StronglySorted (P : Z → Prop) `{!∀ x, Decision (P x)} l :
  StronglySorted Z.le l → StronglySorted Z.le (filter P l).
Proof.
  induction 1 as [|x l Hl IH Hx]; [constructor|].
  rewrite filter_cons. destruct (decide (P x)); [|done].
  constructor; [done|]. rewrite Forall_forall in Hx |- *.
  intros y Hy%list_elem_of_filter. apply Hx, Hy.
Qed.

Lemma remaining_filter A B :
  ascending A → ascending B → remaining A B = filter (λ x, x ∉ B) A.
Proof.
  intros HA HB. unfold remaining. rewrite !sorted_form_id by done.
  rewrite <-(merge_remaining_filter A B) by (by apply ascending_StronglySorted).
  by destruct A, B.
Qed.

Lemma remaining_ascending A B :
  ascending A → ascending B → ascending (remaining A B).
Proof.
  intros HA HB. rewrite remaining_filter by done.
  by apply ascending_StronglySorted, filter_StronglySorted,
    ascending_StronglySorted.
Qed.

Lemma remaining_length A B :
  ascending A → ascending B → (length (remaining A B) ≤ length A)%nat.
Proof. intros. rewrite remaining_filter by done. apply length_filter. Qed.

Lemma remaining_idemp A B :
  ascending A → ascending B → remaining (remaining A B) B = remaining A B.
Proof.
  intros HA HB.
  rewrite (remaining_filter (remaining A B)), (remaining_filter A B);
    [|done|done|by apply remaining_ascending|done].
  rewrite list_filter_filter. apply list_filter_iff. tauto.
Qed.

(** ** The two functions on arbitrary and on ascending arrays *)

Lemma remaining_early A B : A = [] ∨ B = [] → remaining A B = A.
Proof. intros [->| ->]; [done|by destruct A]. Qed.

Lemma foldl_recording {C} (cb : Z → C → C) l c calls :
  foldl (λ s v, recording cb v s) (c, calls) l
  = (foldl (λ c v, cb v c) c l, calls ++ l).
Proof.
  revert c calls. induction l as [|v l IH]; intros c calls; simpl.
  - by rewrite app_nil_r.
  - unfold recording at 2. simpl. by rewrite IH, <-(assoc_L (++)).
Qed.

(** With enough fuel both functions return, and what they return and hand to
    the callback is [remaining]. *)
Lemma getRemaining_result fuel σ ixs minus A B :
  heap σ !! ixs = Some A →
  heap σ !! minus = Some B →
  (length A + length B < fuel)%nat →
  ∃ r σ1 σ2,
    getRemaining fuel ixs minus σ = Ok r σ1
    ∧ heap σ1 !! r = Some (remaining A B)
    ∧ ∀ C (cb : Z → C → C) c,
        getRemainingIter cb fuel ixs minus c σ
        = Ok (foldl (λ c v, cb v c) c (remaining A B)) σ2.
Proof.
  intros Hixs Hminus Hfuel.
  destruct (decide (A = [] ∨ B = [])) as [Hearly|Hmerge].
  - exists ixs, σ, σ. rewrite remaining_early by done.
    assert (A = [] ∨ heap σ !! minus = Some [])
      by (destruct Hearly as [?| ->]; [by left|by right]).
    split_and!; [by eapply getRemaining_early|done|].
    intros C cb c. by eapply getRemainingIter_early.
  - destruct (getRemaining_merge fuel σ ixs minus A B)
      as (σ' & r & _ & _ & _ & _ & _ & Hrun & Hiter); [done|done|tauto|tauto|done|].
    exists r, (set_array r (remaining A B) σ'), σ'.
    split_and!; [done|apply set_array_lookup|done].
Qed.

(** On ascending arrays nothing but the new array is written. *)
Lemma getRemaining_ascending fuel σ ixs minus A B :
  heap σ !! ixs = Some A →
  heap σ !! minus = Some B →
  ascending A → ascending B →
  (length A + length B < fuel)%nat →
  ∃ r σ',
    getRemaining fuel ixs minus σ = Ok r σ'
    ∧ heap σ' !! r = Some (remaining A B)
    ∧ heap σ ⊆ heap σ'
    ∧ console σ' = console σ.
Proof.
  intros Hixs Hminus HA HB Hfuel.
  destruct (decide (A = [] ∨ B = [])) as [Hearly|Hmerge].
  - exists ixs, σ. rewrite remaining_early by done.
    assert (A = [] ∨ heap σ !! minus = Some [])
      by (destruct Hearly as [?| ->]; [by left|by right]).
    split_and!; [by eapply getRemaining_early|done..].
  - destruct (getRemaining_merge fuel σ ixs minus A B)
      as (σ' & r & _ & _ & _ & Hid & Hr & Hrun & _); [done|done|tauto|tauto|done|].
    rewrite Hid in Hr, Hrun by done.
    exists r, (set_array r (remaining A B) σ).
    split_and!; [done|apply set_array_lookup| |done].
    by apply insert_subseteq.
Qed.

(** ** Properties of the specification *)

(** C1, as stated, fails: on the ascending arrays [1,1,2,3] and [1],
    whatever the fuel, [getRemaining] never returns an array of contents
    [1,2,3]; with fuel 6 it returns one of contents [2,3]. *)
Lemma getRemaining_duplicate_counterexample :
  (∀ fuel r σ',
     getRemaining fuel 0%nat 1%nat (two_arrays [1; 1; 2; 3] [1]) = Ok r σ' →
     heap σ' !! r ≠ Some [1; 2; 3])
  ∧ ∃ r σ',
      getRemaining 6 0%nat 1%nat (two_arrays [1; 1; 2; 3] [1]) = Ok r σ'
      ∧ heap σ' !! r = Some [2; 3].
Proof.
  split.
  - intros fuel r σ' Hrun.
    destruct (decide (5 < fuel)%nat) as [Hfuel|Hfuel].
    + destruct (getRemaining_result fuel (two_arrays [1; 1; 2; 3] [1])
                  0%nat 1%nat [1; 1; 2; 3] [1])
        as (r' & σ1 & _ & Hrun' & Hr & _); [done|done|simpl; lia|].
      rewrite Hrun in Hrun'. injection Hrun' as -> ->. by rewrite Hr.
    + do 6 (destruct fuel as [|fuel];
              [vm_compute in Hrun;
               first [discriminate Hrun
                     |injection Hrun as <- <-; vm_compute; discriminate]|]).
      lia.
  - by eexists _, _.
Qed.

(** C1, amended: when the current minuend element equals the current
    subtrahend element, the turn of the merge loop, in [getRemaining] and in
    [getRemainingIter] alike, advances the minuend pointer [p] alone, leaves
    [q] where it is and emits nothing (the state is unchanged, the callback
    is not called); consequently a subtrahend element removes every minuend
    element equal to it, and for the ascending arrays [1,1,2,3] and [1]
    [getRemaining] returns a new array of contents [2,3] and
    [getRemainingIter] passes 2 and then 3 to its callback. *)
Theorem getRemaining_equal_consumes_minuend_only :
  (∀ σ ixs minus res A B p q v,
     heap σ !! ixs = Some A →
     heap σ !! minus = Some B →
     A !! p = Some v → B !! q = Some v →
     getRemaining_while ixs minus res (p, q) σ = Ok (Next ((p + 1)%nat, q)) σ)
  ∧ (∀ fuel σ ixs minus,
       heap σ !! ixs = Some [1; 1; 2; 3] →
       heap σ !! minus = Some [1] →
       (5 < fuel)%nat →
       ∃ r σ',
         getRemaining fuel ixs minus σ = Ok r σ'
         ∧ heap σ' !! r = Some [2; 3])
  ∧ (∀ C (cb : Z → C → C) σ ixs minus A B p q v c,
       heap σ !! ixs = Some A →
       heap σ !! minus = Some B →
       A !! p = Some v → B !! q = Some v →
       getRemainingIter_while cb ixs minus (p, q, c) σ
       = Ok (Next ((p + 1)%nat, q, c)) σ)
  ∧ (∀ C (cb : Z → C → C) fuel σ ixs minus c,
       heap σ !! ixs = Some [1; 1; 2; 3] →
       heap σ !! minus = Some [1] →
       (5 < fuel)%nat →
       ∃ σ',
         getRemainingIter (recording cb) fuel ixs minus (c, []) σ
         = Ok (cb 3 (cb 2 c), [2; 3]) σ').
Proof.
  split_and!.
  - intros σ ixs minus res A B p q v Hixs Hminus Hp Hq.
    unfold getRemaining_while. run.
    rewrite (proj2 (Nat.ltb_lt _ _) (lookup_lt_Some _ _ _ Hp)).
    rewrite (proj2 (Nat.ltb_lt _ _) (lookup_lt_Some _ _ _ Hq)). run.
    rewrite Z.ltb_irrefl, Z.gtb_ltb, Z.ltb_irrefl. by run.
  - intros fuel σ ixs minus Hixs Hminus Hfuel.
    destruct (getRemaining_result fuel σ ixs minus [1; 1; 2; 3] [1])
      as (r & σ1 & _ & Hrun & Hr & _); [done|done|simpl; lia|].
    by exists r, σ1.
  - intros C cb σ ixs minus A B p q v c Hixs Hminus Hp Hq.
    unfold getRemainingIter_while. run.
    rewrite (proj2 (Nat.ltb_lt _ _) (lookup_lt_Some _ _ _ Hp)).
    rewrite (proj2 (Nat.ltb_lt _ _) (lookup_lt_Some _ _ _ Hq)). run.
    rewrite Z.ltb_irrefl, Z.gtb_ltb, Z.ltb_irrefl. by run.
  - intros C cb fuel σ ixs minus c Hixs Hminus Hfuel.
    destruct (getRemaining_result fuel σ ixs minus [1; 1; 2; 3] [1])
      as (_ & _ & σ2 & _ & _ & Hiter); [done|done|simpl; lia|].
    exists σ2. by rewrite Hiter, foldl_recording.
Qed.

Lemma getRemaining_equal_consumes_minuend_only_witness :
  getRemaining_while 0%nat 1%nat 2%nat (1%nat, 0%nat)
    (two_arrays [1; 1; 2; 3] [1])
  = Ok (Next (2%nat, 0%nat)) (two_arrays [1; 1; 2; 3] [1])
  ∧ (∃ r σ',
       getRemaining 6 0%nat 1%nat (two_arrays [1; 1; 2; 3] [1]) = Ok r σ'
       ∧ heap σ' !! r = Some [2; 3])
  ∧ getRemainingIter_while Z.add 0%nat 1%nat (1%nat, 0%nat, 0)
      (two_arrays [1; 1; 2; 3] [1])
    = Ok (Next (2%nat, 0%nat, 0)) (two_arrays [1; 1; 2; 3] [1])
  ∧ ∃ σ',
      getRemainingIter (recording Z.add) 6 0%nat 1%nat (0, [])
        (two_arrays [1; 1; 2; 3] [1])
      = Ok (3 + (2 + 0), [2; 3]) σ'.
Proof.
  pose proof getRemaining_equal_consumes_minuend_only
    as (Hwhile & Hrun & Hiter_while & Hiter).
  split_and!.
  - apply (Hwhile (two_arrays [1; 1; 2; 3] [1]) 0%nat 1%nat 2%nat
             [1; 1; 2; 3] [1] 1%nat 0%nat 1); reflexivity.
  - apply (Hrun 6%nat (two_arrays [1; 1; 2; 3] [1]) 0%nat 1%nat);
      [reflexivity|reflexivity|lia].
  - apply (Hiter_while Z Z.add (two_arrays [1; 1; 2; 3] [1]) 0%nat 1%nat
             [1; 1; 2; 3] [1] 1%nat 0%nat 1 0); reflexivity.
  - apply (Hiter Z Z.add 6%nat (two_arrays [1; 1; 2; 3] [1]) 0%nat 1%nat 0);
      [reflexivity|reflexivity|lia].
Defined.



(** C3: whatever the contents of the array (duplicates, negative numbers,
    none at all), [ensureSorted] returns and leaves the array ascending. *)
Theorem ensureSorted_ascending fuel σ arr l :
  heap σ !! arr = Some l →
  (length l < fuel)%nat →
  ∃ σ' l',
    ensureSorted fuel arr σ = Ok tt σ'
    ∧ heap σ' !! arr = Some l'
    ∧ ascending l'.
Proof.
  intros Harr Hfuel. exists (ensureSorted_post arr l σ), (sorted_form l).
  split_and!.
  - by apply ensureSorted_run.
  - by apply ensureSorted_post_lookup.
  - apply sorted_form_ascending.
Qed.

Lemma ensureSorted_ascending_witness :
  ∃ σ' l',
    ensureSorted 6 0%nat (two_arrays [3; -1; 3; 0; -1] []) = Ok tt σ'
    ∧ heap σ' !! 0%nat = Some l'
    ∧ ascending l'.
Proof.
  apply (ensureSorted_ascending 6 (two_arrays [3; -1; 3; 0; -1] []) 0%nat
           [3; -1; 3; 0; -1]); [reflexivity|simpl; lia].
Defined.

(** C4: for ascending A and B, calling [getRemaining] again on the array it
    returned and the same subtrahend returns an array of the same contents. *)
Theorem getRemaining_idempotent fuel σ ixs minus A B :
  heap σ !! ixs = Some A →
  heap σ !! minus = Some B →
  ascending A → ascending B →
  (length A + length B < fuel)%nat →
  ∃ r1 σ1 r2 σ2 l,
    getRemaining fuel ixs minus σ = Ok r1 σ1
    ∧ heap σ1 !! r1 = Some l
    ∧ getRemaining fuel r1 minus σ1 = Ok r2 σ2
    ∧ heap σ2 !! r2 = Some l.
Proof.
  intros Hixs Hminus HA HB Hfuel.
  destruct (getRemaining_ascending fuel σ ixs minus A B)
    as (r1 & σ1 & Hrun1 & Hr1 & Hsub & _); [done..|].
  pose proof (remaining_length A B HA HB).
  destruct (getRemaining_ascending fuel σ1 r1 minus (remaining A B) B)
    as (r2 & σ2 & Hrun2 & Hr2 & _ & _);
    [done|by eapply lookup_weaken|by apply remaining_ascending|done|lia|].
  exists r1, σ1, r2, σ2, (remaining A B).
  split_and!; [done..|]. by rewrite Hr2, remaining_idemp.
Qed.

Lemma getRemaining_idempotent_witness :
  ∃ r1 σ1 r2 σ2 l,
    getRemaining 8 0%nat 1%nat (two_arrays [1; 2; 2; 3; 5] [2; 4]) = Ok r1 σ1
    ∧ heap σ1 !! r1 = Some l
    ∧ getRemaining 8 r1 1%nat σ1 = Ok r2 σ2
    ∧ heap σ2 !! r2 = Some l.
Proof.
  apply (getRemaining_idempotent 8 (two_arrays [1; 2; 2; 3; 5] [2; 4])
           0%nat 1%nat [1; 2; 2; 3; 5] [2; 4]);
    [reflexivity|reflexivity
    |apply scan_ascending; reflexivity|apply scan_ascending; reflexivity
    |simpl; lia].
Defined.

(** C5: for ascending A and B, the array [getRemaining] returns is
    ascending. *)
Theorem getRemaining_result_ascending fuel σ ixs minus A B :
  heap σ !! ixs = Some A →
  heap σ !! minus = Some B →
  ascending A → ascending B →
  (length A + length B < fuel)%nat →
  ∃ r σ' l,
    getRemaining fuel ixs minus σ = Ok r σ'
    ∧ heap σ' !! r = Some l
    ∧ ascending l.
Proof.
  intros Hixs Hminus HA HB Hfuel.
  destruct (getRemaining_ascending fuel σ ixs minus A B)
    as (r & σ' & Hrun & Hr & _); [done..|].
  exists r, σ', (remaining A B).
  split_and!; [done..|]. by apply remaining_ascending.
Qed.

Lemma getRemaining_result_ascending_witness :
  ∃ r σ' l,
    getRemaining 8 0%nat 1%nat (two_arrays [1; 2; 2; 3; 5] [2; 4]) = Ok r σ'
    ∧ heap σ' !! r = Some l
    ∧ ascending l.
Proof.
  apply (getRemaining_result_ascending 8 (two_arrays [1; 2; 2; 3; 5] [2; 4])
           0%nat 1%nat [1; 2; 2; 3; 5] [2; 4]);
    [reflexivity|reflexivity
    |apply scan_ascending; reflexivity|apply scan_ascending; reflexivity
    |simpl; lia].
Defined.

(** C6: when both arrays are ascending, [ensureSorted] on either returns
    without changing the state (no mutation, nothing on the console), and
    [getRemaining] returns with the minuend and the subtrahend, and every
    other array there was, holding their original contents. *)
Theorem ascending_inputs_not_mutated fuel σ ixs minus A B :
  heap σ !! ixs = Some A →
  heap σ !! minus = Some B →
  ascending A → ascending B →
  (length A + length B < fuel)%nat →
  ensureSorted fuel ixs σ = Ok tt σ
  ∧ ensureSorted fuel minus σ = Ok tt σ
  ∧ ∃ r σ',
      getRemaining fuel ixs minus σ = Ok r σ'
      ∧ heap σ' !! ixs = Some A
      ∧ heap σ' !! minus = Some B
      ∧ heap σ ⊆ heap σ'
      ∧ console σ' = console σ.
Proof.
  intros Hixs Hminus HA HB Hfuel. split_and!.
  - rewrite (ensureSorted_run _ _ _ A) by (done || lia).
    by rewrite ensureSorted_post_id.
  - rewrite (ensureSorted_run _ _ _ B) by (done || lia).
    by rewrite ensureSorted_post_id.
  - destruct (getRemaining_ascending fuel σ ixs minus A B)
      as (r & σ' & Hrun & _ & Hsub & Hconsole); [done..|].
    exists r, σ'. split_and!; [done| | |done..]; by eapply lookup_weaken.
Qed.

Lemma ascending_inputs_not_mutated_witness :
  ensureSorted 8 0%nat (two_arrays [1; 2; 2; 3; 5] [2; 4])
  = Ok tt (two_arrays [1; 2; 2; 3; 5] [2; 4])
  ∧ ensureSorted 8 1%nat (two_arrays [1; 2; 2; 3; 5] [2; 4])
    = Ok tt (two_arrays [1; 2; 2; 3; 5] [2; 4])
  ∧ ∃ r σ',
      getRemaining 8 0%nat 1%nat (two_arrays [1; 2; 2; 3; 5] [2; 4]) = Ok r σ'
      ∧ heap σ' !! 0%nat = Some [1; 2; 2; 3; 5]
      ∧ heap σ' !! 1%nat = Some [2; 4]
      ∧ heap (two_arrays [1; 2; 2; 3; 5] [2; 4]) ⊆ heap σ'
      ∧ console σ' = console (two_arrays [1; 2; 2; 3; 5] [2; 4]).
Proof.
  apply (ascending_inputs_not_mutated 8 (two_arrays [1; 2; 2; 3; 5] [2; 4])
           0%nat 1%nat [1; 2; 2; 3; 5] [2; 4]);
    [reflexivity|reflexivity
    |apply scan_ascending; reflexivity|apply scan_ascending; reflexivity
    |simpl; lia].
Defined.

(** C7: on arrays of any contents, every turn of either merge loop taken
    with both pointers in range moves exactly one of [p] and [q] one step
    on; from any pointers the loop leaves, with one of them out of range,
    within as many turns as elements are ahead of the two pointers, plus one;
    and [getRemaining] and [getRemainingIter] return once the fuel exceeds
    the sum of the two lengths. *)
Theorem getRemaining_terminates σ ixs minus A B :
  heap σ !! ixs = Some A →
  heap σ !! minus = Some B →
  (∀ res acc p q,
     heap σ !! res = Some acc →
     (p < length A)%nat → (q < length B)%nat →
     ∃ p' q' σ',
       getRemaining_while ixs minus res (p, q) σ = Ok (Next (p', q')) σ'
       ∧ (p' + q' = p + q + 1)%nat)
  ∧ (∀ C (cb : Z → C → C) c p q,
       (p < length A)%nat → (q < length B)%nat →
       ∃ p' q' c',
         getRemainingIter_while cb ixs minus (p, q, c) σ
         = Ok (Next (p', q', c')) σ
         ∧ (p' + q' = p + q + 1)%nat)
  ∧ (∀ fuel res acc p q,
       heap σ !! res = Some acc →
       res ≠ ixs → res ≠ minus →
       (length A - p + (length B - q) < fuel)%nat →
       ∃ p' q' σ',
         loop (getRemaining_while ixs minus res) fuel (p, q) σ = Ok (p', q') σ'
         ∧ (p' <? length A)%nat && (q' <? length B)%nat = false)
  ∧ (∀ C (cb : Z → C → C) fuel c p q,
       (length A - p + (length B - q) < fuel)%nat →
       ∃ p' q' c',
         loop (getRemainingIter_while cb ixs minus) fuel (p, q, c) σ
         = Ok (p', q', c') σ
         ∧ (p' <? length A)%nat && (q' <? length B)%nat = false)
  ∧ ∀ fuel,
      (length A + length B < fuel)%nat →
      (∃ r σ', getRemaining fuel ixs minus σ = Ok r σ')
      ∧ ∀ C (cb : Z → C → C) c,
          ∃ c' σ', getRemainingIter cb fuel ixs minus c σ = Ok c' σ'.
Proof.
  intros Hixs Hminus. split_and!.
  - intros res acc p q Hres Hp Hq.
    destruct (lookup_lt_is_Some_2 _ _ Hp) as [cur Hcur].
    destruct (lookup_lt_is_Some_2 _ _ Hq) as [m Hm].
    apply Nat.ltb_lt in Hp, Hq.
    unfold getRemaining_while. run. rewrite Hp, Hq. run.
    destruct (cur <? m); [|destruct (cur >? m)]; run; eexists _, _, _;
      (split; [done|lia]).
  - intros C cb c p q Hp Hq.
    destruct (lookup_lt_is_Some_2 _ _ Hp) as [cur Hcur].
    destruct (lookup_lt_is_Some_2 _ _ Hq) as [m Hm].
    apply Nat.ltb_lt in Hp, Hq.
    unfold getRemainingIter_while. run. rewrite Hp, Hq. run.
    destruct (cur <? m); [|destruct (cur >? m)]; run; eexists _, _, _;
      (split; [done|lia]).
  - intros fuel res acc p q Hres Hri Hrm Hfuel.
    destruct (getRemaining_while_loop fuel σ ixs minus res A B acc p q)
      as (p' & q' & emitted & Hloop & _ & Hexit); [done..|].
    by eexists p', q', _.
  - intros C cb fuel c p q Hfuel.
    destruct (getRemainingIter_while_loop cb fuel σ ixs minus A B p q c)
      as (p' & q' & emitted & Hloop & _ & Hexit); [done..|].
    by eexists p', q', _.
  - intros fuel Hfuel.
    destruct (getRemaining_result fuel σ ixs minus A B)
      as (r & σ1 & σ2 & Hrun & _ & Hiter); [done..|].
    split; [by exists r, σ1|]. intros C cb c. eexists _, σ2. apply Hiter.
Qed.

Lemma getRemaining_terminates_witness :
  (∃ r σ', getRemaining 8 0%nat 1%nat (two_arrays [4; 1; 4; 2] [9; 4; 0])
           = Ok r σ')
  ∧ ∀ C (cb : Z → C → C) c,
      ∃ c' σ', getRemainingIter cb 8 0%nat 1%nat c
                 (two_arrays [4; 1; 4; 2] [9; 4; 0]) = Ok c' σ'.
Proof.
  pose proof (getRemaining_terminates (two_arrays [4; 1; 4; 2] [9; 4; 0])
                0%nat 1%nat [4; 1; 4; 2] [9; 4; 0] eq_refl eq_refl) as H.
  apply H. simpl. lia.
Defined.

(** C8: for ascending A and B, the array [getRemaining] returns holds
    exactly the elements of A, in order, whose value occurs nowhere in B. *)
Theorem getRemaining_filter fuel σ ixs minus A B :
  heap σ !! ixs = Some A →
  heap σ !! minus = Some B →
  ascending A → ascending B →
  (length A + length B < fuel)%nat →
  ∃ r σ',
    getRemaining fuel ixs minus σ = Ok r σ'
    ∧ heap σ' !! r = Some (filter (λ x, x ∉ B) A).
Proof.
  intros Hixs Hminus HA HB Hfuel.
  destruct (getRemaining_ascending fuel σ ixs minus A B)
    as (r & σ' & Hrun & Hr & _); [done..|].
  exists r, σ'. by rewrite <-remaining_filter.
Qed.

Lemma getRemaining_filter_witness :
  ∃ r σ',
    getRemaining 12 0%nat 1%nat
      (two_arrays [1; 2; 2; 3; 3; 3; 7] [2; 3; 3; 9]) = Ok r σ'
    ∧ heap σ' !! r = Some (filter (λ x, x ∉ [2; 3; 3; 9]) [1; 2; 2; 3; 3; 3; 7]).
Proof.
  apply (getRemaining_filter 12 (two_arrays [1; 2; 2; 3; 3; 3; 7] [2; 3; 3; 9])
           0%nat 1%nat [1; 2; 2; 3; 3; 3; 7] [2; 3; 3; 9]);
    [reflexivity|reflexivity
    |apply scan_ascending; reflexivity|apply scan_ascending; reflexivity
    |simpl; lia].
Defined.

(** C9: when either array is empty, whatever the fuel, [getRemaining] returns
    the minuend itself and [getRemainingIter] passes the minuend's elements
    to the callback in their given order, both leaving the state as it was:
    nothing is checked, sorted or written to the console, ascending minuend
    or not. *)
Theorem getRemaining_empty_input {C : Type} (cb : Z → C → C)
    fuel σ ixs minus A B c :
  heap σ !! ixs = Some A →
  heap σ !! minus = Some B →
  A = [] ∨ B = [] →
  getRemaining fuel ixs minus σ = Ok ixs σ
  ∧ getRemainingIter (recording cb) fuel ixs minus (c, []) σ
    = Ok (foldl (λ c v, cb v c) c A, A) σ.
Proof.
  intros Hixs Hminus Hearly.
  assert (A = [] ∨ heap σ !! minus = Some [])
    by (destruct Hearly as [?| ->]; [by left|by right]).
  split; [by eapply getRemaining_early|].
  erewrite getRemainingIter_early by done. by rewrite foldl_recording.
Qed.

Lemma getRemaining_empty_input_witness :
  getRemaining 0 0%nat 1%nat (two_arrays [3; 1; 2] [])
  = Ok 0%nat (two_arrays [3; 1; 2] [])
  ∧ getRemainingIter (recording Z.add) 0 0%nat 1%nat (0, [])
      (two_arrays [3; 1; 2] [])
    = Ok (foldl (λ c v, v + c) 0 [3; 1; 2], [3; 1; 2])
         (two_arrays [3; 1; 2] []).
Proof.
  apply (getRemaining_empty_input Z.add 0 (two_arrays [3; 1; 2] [])
           0%nat 1%nat [3; 1; 2] [] 0);
    [reflexivity|reflexivity|right; reflexivity].
Defined.

(** C10: whatever the contents of the array, [ensureSorted] returns and
    leaves in it a permutation of what it held. *)
Theorem ensureSorted_Permutation fuel σ arr l :
  heap σ !! arr = Some l →
  (length l < fuel)%nat →
  ∃ σ' l',
    ensureSorted fuel arr σ = Ok tt σ'
    ∧ heap σ' !! arr = Some l'
    ∧ l' ≡ₚ l.
Proof.
  intros Harr Hfuel. exists (ensureSorted_post arr l σ), (sorted_form l).
  split_and!.
  - by apply ensureSorted_run.
  - by apply ensureSorted_post_lookup.
  - apply sorted_form_Permutation.
Qed.

Lemma ensureSorted_Permutation_witness :
  ∃ σ' l',
    ensureSorted 6 0%nat (two_arrays [3; -1; 3; 0; -1] []) = Ok tt σ'
    ∧ heap σ' !! 0%nat = Some l'
    ∧ l' ≡ₚ [3; -1; 3; 0; -1].
Proof.
  apply (ensureSorted_Permutation 6 (two_arrays [3; -1; 3; 0; -1] []) 0%nat
           [3; -1; 3; 0; -1]); [reflexivity|simpl; lia].
Defined.

(** ** Further properties of the guard and of the difference *)

Lemma sort_insert_HdRel x l :
  HdRel Z.le x l → sort_insert d3_ascending x l = x :: l.
Proof.
  destruct 1 as [|y l Hxy]; [done|]. cbn [sort_insert].
  rewrite d3_ascending_pos. by rewrite (proj2 (Z.ltb_ge y x)).
Qed.

Lemma Array_sort_Sorted l : Sorted Z.le l → Array_sort d3_ascending l = l.
Proof.
  induction 1 as [|x l Hl IH Hx]; [done|].
  cbn [Array_sort foldr]. fold (Array_sort d3_ascending l).
  by rewrite IH, sort_insert_HdRel.
Qed.

Lemma sorted_form_Array_sort l : sorted_form l = Array_sort d3_ascending l.
Proof.
  unfold sorted_form. destruct (scan _ l) eqn:Hscan; [|done].
  symmetry. by apply Array_sort_Sorted, ascending_Sorted, scan_ascending.
Qed.

Lemma remaining_merge_filter A B :
  A ≠ [] → B ≠ [] →
  remaining A B = filter (λ x, x ∉ B) (Array_sort d3_ascending A).
Proof.
  intros HA HB. rewrite <-sorted_form_Array_sort.
  transitivity (merge_remaining (sorted_form A) (sorted_form B)).
  { by destruct A, B. }
  rewrite merge_remaining_filter
    by apply ascending_StronglySorted, sorted_form_ascending.
  apply list_filter_iff. intros x. by rewrite sorted_form_Permutation.
Qed.

(** Past the early return, with the arrays the call leaves spelled out. *)
Lemma getRemaining_merge_sorted fuel σ ixs minus A B :
  heap σ !! ixs = Some A →
  heap σ !! minus = Some B →
  A ≠ [] → B ≠ [] →
  (length A + length B < fuel)%nat →
  ∃ σ' r,
    heap σ' !! ixs = Some (Array_sort d3_ascending A)
    ∧ heap σ' !! minus = Some (Array_sort d3_ascending B)
    ∧ (∀ a, a ≠ ixs → a ≠ minus → heap σ' !! a = heap σ !! a)
    ∧ heap σ !! r = None
    ∧ getRemaining fuel ixs minus σ
      = Ok r (set_array r
                (filter (λ x, x ∉ B) (Array_sort d3_ascending A)) σ')
    ∧ ∀ C (cb : Z → C → C) c,
        getRemainingIter cb fuel ixs minus c σ
        = Ok (foldl (λ c v, cb v c) c
                (filter (λ x, x ∉ B) (Array_sort d3_ascending A))) σ'.
Proof.
  intros Hixs Hminus HA HB Hfuel.
  destruct (getRemaining_merge fuel σ ixs minus A B)
    as (σ' & r & Hixs' & Hminus' & Hframe & _ & Hr & Hrun & Hiter);
    [done..|].
  rewrite sorted_form_Array_sort in Hixs', Hminus'.
  rewrite remaining_merge_filter in Hrun by done.
  exists σ', r. split_and!; [done..| |done|].
  - rewrite <-Hframe; [done|by intros ->; rewrite Hixs' in Hr
                             |by intros ->; rewrite Hminus' in Hr].
  - intros C cb c. by rewrite Hiter, remaining_merge_filter.
Qed.

(** X1: when neither array is empty, whatever their order, [getRemaining]
    returns an array at a location that held none before, whose contents are
    the sorted minuend without every element that occurs in the
    subtrahend. *)
Theorem getRemaining_any_order fuel σ ixs minus A B :
  heap σ !! ixs = Some A →
  heap σ !! minus = Some B →
  A ≠ [] → B ≠ [] →
  (length A + length B < fuel)%nat →
  ∃ r σ',
    getRemaining fuel ixs minus σ = Ok r σ'
    ∧ heap σ !! r = None
    ∧ heap σ' !! r = Some (filter (λ x, x ∉ B) (Array_sort d3_ascending A)).
Proof.
  intros Hixs Hminus HA HB Hfuel.
  destruct (getRemaining_merge_sorted fuel σ ixs minus A B)
    as (σ' & r & _ & _ & _ & Hr & Hrun & _); [done..|].
  eexists r, _. split_and!; [done|done|apply set_array_lookup].
Qed.

Lemma getRemaining_any_order_witness :
  ∃ r σ',
    getRemaining 8 0%nat 1%nat (two_arrays [5; 3; 1; 3] [7; 3; 0]) = Ok r σ'
    ∧ heap (two_arrays [5; 3; 1; 3] [7; 3; 0]) !! r = None
    ∧ heap σ' !! r
      = Some (filter (λ x, x ∉ [7; 3; 0])
                (Array_sort d3_ascending [5; 3; 1; 3])).
Proof.
  apply (getRemaining_any_order 8 (two_arrays [5; 3; 1; 3] [7; 3; 0])
           0%nat 1%nat [5; 3; 1; 3] [7; 3; 0]);
    [reflexivity|reflexivity|discriminate|discriminate|simpl; lia].
Defined.

(** X2: when neither array is empty, [getRemaining] leaves the minuend and
    the subtrahend sorted in place, and every array other than these two and
    the one it returns as it was. *)
Theorem getRemaining_sorts_inputs fuel σ ixs minus A B :
  heap σ !! ixs = Some A →
  heap σ !! minus = Some B →
  A ≠ [] → B ≠ [] →
  (length A + length B < fuel)%nat →
  ∃ r σ',
    getRemaining fuel ixs minus σ = Ok r σ'
    ∧ heap σ' !! ixs = Some (Array_sort d3_ascending A)
    ∧ heap σ' !! minus = Some (Array_sort d3_ascending B)
    ∧ ∀ a, a ≠ ixs → a ≠ minus → a ≠ r → heap σ' !! a = heap σ !! a.
Proof.
  intros Hixs Hminus HA HB Hfuel.
  destruct (getRemaining_merge_sorted fuel σ ixs minus A B)
    as (σ' & r & Hixs' & Hminus' & Hframe & Hr & Hrun & _); [done..|].
  assert (r ≠ ixs) by (intros ->; by rewrite Hixs in Hr).
  assert (r ≠ minus) by (intros ->; by rewrite Hminus in Hr).
  eexists r, _. split_and!; [done|..].
  - by rewrite set_array_lookup_ne.
  - by rewrite set_array_lookup_ne.
  - intros a ???. rewrite set_array_lookup_ne by done. by apply Hframe.
Qed.

Lemma getRemaining_sorts_inputs_witness :
  ∃ r σ',
    getRemaining 8 0%nat 1%nat (two_arrays [5; 3; 1; 3] [7; 3; 0]) = Ok r σ'
    ∧ heap σ' !! 0%nat = Some (Array_sort d3_ascending [5; 3; 1; 3])
    ∧ heap σ' !! 1%nat = Some (Array_sort d3_ascending [7; 3; 0])
    ∧ ∀ a, a ≠ 0%nat → a ≠ 1%nat → a ≠ r →
           heap σ' !! a = heap (two_arrays [5; 3; 1; 3] [7; 3; 0]) !! a.
Proof.
  apply (getRemaining_sorts_inputs 8 (two_arrays [5; 3; 1; 3] [7; 3; 0])
           0%nat 1%nat [5; 3; 1; 3] [7; 3; 0]);
    [reflexivity|reflexivity|discriminate|discriminate|simpl; lia].
Defined.

(** X3: on an array that is not ascending, [ensureSorted] writes exactly two
    lines to the console, the second one with a non-empty run of swapped
    values and the contents found, and replaces the contents by their sorted
    form; nothing else changes. *)
Theorem ensureSorted_repairs fuel σ arr l :
  heap σ !! arr = Some l →
  ¬ ascending l →
  (length l < fuel)%nat →
  ∃ swapped,
    swapped ≠ []
    ∧ ensureSorted fuel arr σ
      = Ok tt (State (<[arr := Array_sort d3_ascending l]> (heap σ))
                     (console σ ++ [SlowSortTest; ArrayNotSorted swapped l])).
Proof.
  intros Harr Hl Hfuel.
  assert (scan NEGATIVE_INFINITY l = false) as Hscan.
  { destruct (scan _ l) eqn:Hscan; [|done]. by apply scan_ascending in Hscan. }
  exists (swapped_of l). split; [by apply swapped_of_disorder|].
  rewrite (ensureSorted_run _ _ _ l) by done.
  unfold ensureSorted_post. by rewrite Hscan.
Qed.

Lemma ensureSorted_repairs_witness :
  ∃ swapped,
    swapped ≠ []
    ∧ ensureSorted 5 0%nat (two_arrays [2; 1; 3] [])
      = Ok tt (State (<[0%nat := Array_sort d3_ascending [2; 1; 3]]>
                        (heap (two_arrays [2; 1; 3] [])))
                     (console (two_arrays [2; 1; 3] [])
                      ++ [SlowSortTest; ArrayNotSorted swapped [2; 1; 3]])).
Proof.
  apply (ensureSorted_repairs 5 (two_arrays [2; 1; 3] []) 0%nat [2; 1; 3]);
    [reflexivity| |simpl; lia].
  intros H. specialize (H 0%nat 2 1 eq_refl eq_refl). lia.
Defined.

(** X4: [ensureSorted] is idempotent: a second call on the same array
    returns without changing the state the first call left. *)
Theorem ensureSorted_idempotent fuel σ arr l :
  heap σ !! arr = Some l →
  (length l < fuel)%nat →
  ∃ σ',
    ensureSorted fuel arr σ = Ok tt σ'
    ∧ ensureSorted fuel arr σ' = Ok tt σ'.
Proof.
  intros Harr Hfuel. exists (ensureSorted_post arr l σ).
  split; [by apply ensureSorted_run|].
  rewrite (ensureSorted_run _ _ _ (sorted_form l)).
  - by rewrite ensureSorted_post_id by apply sorted_form_ascending.
  - by apply ensureSorted_post_lookup.
  - by rewrite sorted_form_length.
Qed.

Lemma ensureSorted_idempotent_witness :
  ∃ σ',
    ensureSorted 5 0%nat (two_arrays [2; 1; 3] []) = Ok tt σ'
    ∧ ensureSorted 5 0%nat σ' = Ok tt σ'.
Proof.
  apply (ensureSorted_idempotent 5 (two_arrays [2; 1; 3] []) 0%nat [2; 1; 3]);
    [reflexivity|simpl; lia].
Defined.



(** X6: [getRemaining] of a non-empty array and itself sorts the array in
    place and returns a new, empty array. *)
Theorem getRemaining_self fuel σ ixs A :
  heap σ !! ixs = Some A →
  A ≠ [] →
  (length A + length A < fuel)%nat →
  ∃ r σ',
    getRemaining fuel ixs ixs σ = Ok r σ'
    ∧ r ≠ ixs
    ∧ heap σ' !! r = Some []
    ∧ heap σ' !! ixs = Some (Array_sort d3_ascending A).
Proof.
  intros Hixs HA Hfuel.
  destruct (getRemaining_merge_sorted fuel σ ixs ixs A A)
    as (σ' & r & Hixs' & _ & _ & Hr & Hrun & _); [done..|].
  assert (r ≠ ixs) by (intros ->; by rewrite Hixs in Hr).
  assert (filter (λ x, x ∉ A) (Array_sort d3_ascending A) = []) as Hnil.
  { apply elem_of_nil_inv. intros x [Hx ?]%list_elem_of_filter.
    apply Hx. by rewrite <-(Array_sort_Permutation d3_ascending A). }
  rewrite Hnil in Hrun. eexists r, _. split_and!; [done|done|..].
  - apply set_array_lookup.
  - by rewrite set_array_lookup_ne.
Qed.

Lemma getRemaining_self_witness :
  ∃ r σ',
    getRemaining 8 0%nat 0%nat (two_arrays [5; 3; 1] []) = Ok r σ'
    ∧ r ≠ 0%nat
    ∧ heap σ' !! r = Some []
    ∧ heap σ' !! 0%nat = Some (Array_sort d3_ascending [5; 3; 1]).
Proof.
  apply (getRemaining_self 8 (two_arrays [5; 3; 1] []) 0%nat [5; 3; 1]);
    [reflexivity|discriminate|simpl; lia].
Defined.

(** ** [applyPerm] *)

Lemma array_set_Ok σ a l i v :
  heap σ !! a = Some l →
  (i ≤ length l)%nat →
  array_set a i v σ = Ok tt (set_array a (take i l ++ v :: drop (S i) l) σ).
Proof.
  intros Ha Hi. unfold array_set. run.
  destruct (i <? length l)%nat eqn:Hlt.
  - apply Nat.ltb_lt in Hlt. unfold array_store.
    by rewrite insert_take_drop.
  - apply Nat.ltb_ge in Hlt. assert (i = length l) as -> by lia.
    rewrite Nat.eqb_refl. unfold array_store.
    by rewrite firstn_all, drop_ge by lia.
Qed.

Lemma array_index_Ok σ a l k v :
  heap σ !! a = Some l → pick l k = Some v → array_index a k σ = Ok v σ.
Proof.
  unfold pick, array_index. intros Ha Hk.
  destruct (0 <=? k); [|done]. by erewrite array_get_Ok.
Qed.

Lemma array_slice_Ok σ a l :
  heap σ !! a = Some l →
  array_slice a σ
  = Ok (fresh (dom (heap σ))) (set_array (fresh (dom (heap σ))) l σ).
Proof.
  intros Ha. unfold array_slice. run. unfold array_new at 1. run.
  unfold array_store. by rewrite set_array_set_array.
Qed.

Lemma applyPerm_step_contents (V A : list Z) i v :
  V !! i = Some v →
  take i (take i V ++ drop i A) ++ v :: drop (S i) (take i V ++ drop i A)
  = take (S i) V ++ drop (S i) A.
Proof.
  intros Hv. pose proof (lookup_lt_Some _ _ _ Hv) as Hi.
  assert (length (take i V) = i) as Hlen by (rewrite length_take; lia).
  rewrite take_app_length' by done.
  rewrite drop_app_ge by lia. rewrite Hlen, drop_drop.
  replace (S i - i)%nat with 1%nat by lia.
  rewrite (take_S_r _ _ _ Hv), <-(assoc_L (++)).
  by replace (i + 1)%nat with (S i) by lia.
Qed.

Lemma applyPerm_loop fuel σ arr perm tmp A P V i :
  heap σ !! arr = Some (take i V ++ drop i A) →
  heap σ !! perm = Some P →
  heap σ !! tmp = Some A →
  arr ≠ perm → arr ≠ tmp →
  Forall2 (λ k v, pick A k = Some v) P V →
  (i ≤ length P)%nat →
  (length P - i < fuel)%nat →
  loop (applyPerm_for arr perm tmp) fuel i σ
  = Ok tt (set_array arr (V ++ drop (length P) A) σ).
Proof.
  intros Harr Hperm Htmp Hap Hat HV. revert σ i Harr Hperm Htmp.
  pose proof (Forall2_length _ _ _ HV) as Hlen.
  induction fuel as [|fuel IH]; intros σ i Harr Hperm Htmp Hi Hfuel; [lia|].
  rewrite loop_S. set (rest := loop _ fuel). unfold applyPerm_for. run.
  destruct (i <? length P)%nat eqn:Hlt.
  - apply Nat.ltb_lt in Hlt.
    destruct (lookup_lt_is_Some_2 P i Hlt) as [k Hk].
    destruct (Forall2_lookup_l _ _ _ _ _ HV Hk) as (v & Hv & Hpick).
    run. rewrite (array_index_Ok _ _ _ _ _ Htmp Hpick). run.
    rewrite (array_set_Ok _ _ _ _ _ Harr); last first.
    { rewrite length_app, length_take, length_drop. lia. }
    run. subst rest. rewrite (applyPerm_step_contents _ _ _ _ Hv).
    replace (i + 1)%nat with (S i) by lia. rewrite IH.
    + by rewrite set_array_set_array.
    + apply set_array_lookup.
    + by rewrite set_array_lookup_ne.
    + by rewrite set_array_lookup_ne.
    + lia.
    + lia.
  - apply Nat.ltb_ge in Hlt. run. assert (i = length P) as -> by lia.
    rewrite take_ge in Harr by lia. by rewrite (set_array_id _ _ _ Harr).
Qed.

(** The whole of [applyPerm], for index arrays whose entries all select an
    element: [V] lists the elements selected. *)
Lemma applyPerm_run fuel σ arr perm A P V :
  heap σ !! arr = Some A →
  heap σ !! perm = Some P →
  arr ≠ perm →
  Forall2 (λ k v, pick A k = Some v) P V →
  (length P < fuel)%nat →
  ∃ tmp,
    heap σ !! tmp = None
    ∧ applyPerm fuel arr perm σ
      = Ok (if decide (length A = length P) then []
            else [LengthsDiffer (length A) (length P)])
           (set_array arr (V ++ drop (length P) A) (set_array tmp A σ)).
Proof.
  intros Harr Hperm Hap HV Hfuel.
  exists (fresh (dom (heap σ))). split; [apply fresh_array_lookup|].
  unfold applyPerm. rewrite bind_run, (array_slice_Ok _ _ _ Harr).
  set (tmp := fresh (dom (heap σ))).
  assert (arr ≠ tmp) by (by apply not_eq_sym, (fresh_array_ne σ arr A)).
  assert (perm ≠ tmp) by (by apply not_eq_sym, (fresh_array_ne σ perm P)).
  assert (heap (set_array tmp A σ) !! tmp = Some A) as Htmp
    by apply set_array_lookup.
  assert (heap (set_array tmp A σ) !! perm = Some P) as Hperm'
    by (by rewrite set_array_lookup_ne).
  assert (heap (set_array tmp A σ) !! arr = Some A) as Harr'
    by (by rewrite set_array_lookup_ne).
  run. rewrite (applyPerm_loop fuel _ arr perm tmp A P V 0%nat);
    [|by rewrite take_0, drop_0|done..|lia|lia].
  run. f_equal. destruct (decide (length A = length P)) as [->|Hne].
  - by rewrite Nat.eqb_refl.
  - by rewrite (proj2 (Nat.eqb_neq _ _) Hne).
Qed.

Lemma pick_Some A k v :
  pick A k = Some v ↔ 0 ≤ k ∧ A !! Z.to_nat k = Some v.
Proof.
  unfold pick. destruct (0 <=? k) eqn:Hk.
  - apply Z.leb_le in Hk. tauto.
  - apply Z.leb_gt in Hk. split; [done|lia].
Qed.

Lemma pick_in_range A k :
  0 ≤ k < Z.of_nat (length A) → pick A k = A !! Z.to_nat k.
Proof. intros Hk. unfold pick. by rewrite (proj2 (Z.leb_le 0 k)) by lia. Qed.

Lemma Forall2_pick_selected A P :
  Forall (λ k, 0 ≤ k < Z.of_nat (length A)) P →
  Forall2 (λ k v, pick A k = Some v) P (selected A P).
Proof.
  intros HP. apply Forall2_fmap_r, Forall_Forall2_diag.
  eapply Forall_impl; [done|]. intros k Hk. cbn beta in *.
  unfold compose. rewrite !pick_in_range by done.
  destruct (lookup_lt_is_Some_2 A (Z.to_nat k)) as [v ->]; [lia|done].
Qed.

Lemma selected_lookup A P i k :
  0 ≤ k < Z.of_nat (length A) →
  P !! i = Some k → selected A P !! i = A !! Z.to_nat k.
Proof.
  intros Hk Hi. unfold selected. rewrite list_lookup_fmap, Hi. simpl.
  rewrite pick_in_range by done.
  destruct (lookup_lt_is_Some_2 A (Z.to_nat k)) as [v ->]; [lia|done].
Qed.

Lemma selected_seqZ A : selected A (seqZ 0 (Z.of_nat (length A))) = A.
Proof.
  apply list_eq. intros i. destruct (decide (i < length A)%nat) as [Hi|Hi].
  - rewrite (selected_lookup A _ i (Z.of_nat i)).
    + by rewrite Nat2Z.id.
    + lia.
    + by rewrite lookup_seqZ_lt by lia.
  - rewrite (lookup_ge_None_2 A) by lia. apply lookup_ge_None_2.
    unfold selected. rewrite length_fmap, length_seqZ. lia.
Qed.

(** X7: with every entry of the index array selecting an element of [arr],
    [applyPerm] puts at each position [i] of the index array the element its
    entry selected before the call, keeps what lies beyond the index array,
    warns exactly when the two lengths differ, and changes no other array. *)
Theorem applyPerm_selects fuel σ arr perm A P :
  heap σ !! arr = Some A →
  heap σ !! perm = Some P →
  arr ≠ perm →
  Forall (λ k, 0 ≤ k < Z.of_nat (length A)) P →
  (length P < fuel)%nat →
  ∃ w σ' l,
    applyPerm fuel arr perm σ = Ok w σ'
    ∧ heap σ' !! arr = Some l
    ∧ length l = (length A `max` length P)%nat
    ∧ (∀ i k, P !! i = Some k → l !! i = A !! Z.to_nat k)
    ∧ (∀ i, (length P ≤ i)%nat → l !! i = A !! i)
    ∧ w = (if decide (length A = length P) then []
           else [LengthsDiffer (length A) (length P)])
    ∧ (∀ a l', a ≠ arr → heap σ !! a = Some l' → heap σ' !! a = Some l')
    ∧ console σ' = console σ.
Proof.
  intros Harr Hperm Hap HP Hfuel.
  destruct (applyPerm_run fuel σ arr perm A P (selected A P))
    as (tmp & Htmp & Hrun); [done|done|done|by apply Forall2_pick_selected|done|].
  assert (length (selected A P) = length P) as Hlen
    by (unfold selected; by rewrite length_fmap).
  eexists _, _, _. split_and!.
  - done.
  - apply set_array_lookup.
  - rewrite length_app, length_drop, Hlen. lia.
  - intros i k Hi. rewrite lookup_app_l
      by (rewrite Hlen; by eapply lookup_lt_Some).
    apply selected_lookup; [|done].
    rewrite Forall_forall in HP. apply HP. by eapply list_elem_of_lookup_2.
  - intros i Hi. rewrite lookup_app_r by (rewrite Hlen; lia).
    rewrite lookup_drop, Hlen. f_equal. lia.
  - done.
  - intros a l' Ha Hl'. rewrite set_array_lookup_ne by done.
    rewrite set_array_lookup_ne; [done|]. intros ->. by rewrite Htmp in Hl'.
  - done.
Qed.

Lemma applyPerm_selects_witness :
  ∃ w σ' l,
    applyPerm 3 0%nat 1%nat (two_arrays [10; 20; 30] [2; 2]) = Ok w σ'
    ∧ heap σ' !! 0%nat = Some l
    ∧ length l = (length [10; 20; 30] `max` length [2; 2])%nat
    ∧ (∀ i k, [2; 2] !! i = Some k → l !! i = [10; 20; 30] !! Z.to_nat k)
    ∧ (∀ i, (length [2; 2] ≤ i)%nat → l !! i = [10; 20; 30] !! i)
    ∧ w = (if decide (length [10; 20; 30] = length [2; 2]) then []
           else [LengthsDiffer (length [10; 20; 30]) (length [2; 2])])
    ∧ (∀ a l', a ≠ 0%nat →
               heap (two_arrays [10; 20; 30] [2; 2]) !! a = Some l' →
               heap σ' !! a = Some l')
    ∧ console σ' = console (two_arrays [10; 20; 30] [2; 2]).
Proof.
  apply (applyPerm_selects 3 (two_arrays [10; 20; 30] [2; 2]) 0%nat 1%nat
           [10; 20; 30] [2; 2]);
    [reflexivity|reflexivity|discriminate| |simpl; lia].
  repeat constructor; simpl; lia.
Defined.

(** X8: when the index array is a permutation of the indices of [arr],
    [applyPerm] warns of nothing and leaves in [arr] a permutation of what
    it held. *)
Theorem applyPerm_Permutation fuel σ arr perm A P :
  heap σ !! arr = Some A →
  heap σ !! perm = Some P →
  arr ≠ perm →
  P ≡ₚ seqZ 0 (Z.of_nat (length A)) →
  (length P < fuel)%nat →
  ∃ σ' l,
    applyPerm fuel arr perm σ = Ok [] σ'
    ∧ heap σ' !! arr = Some l
    ∧ l ≡ₚ A.
Proof.
  intros Harr Hperm Hap HP Hfuel.
  assert (length P = length A) as Hlen.
  { rewrite HP, length_seqZ. lia. }
  destruct (applyPerm_run fuel σ arr perm A P (selected A P))
    as (tmp & Htmp & Hrun); [done|done|done| |done|].
  { apply Forall2_pick_selected. rewrite HP. apply Forall_forall.
    intros k Hk%elem_of_seqZ. lia. }
  rewrite decide_True in Hrun by done.
  eexists _, _. split_and!; [done|apply set_array_lookup|].
  rewrite drop_ge, app_nil_r by lia.
  rewrite <-(selected_seqZ A) at 2. unfold selected. by rewrite HP.
Qed.

Lemma applyPerm_Permutation_witness :
  ∃ σ' l,
    applyPerm 4 0%nat 1%nat (two_arrays [10; 20; 30] [2; 0; 1]) = Ok [] σ'
    ∧ heap σ' !! 0%nat = Some l
    ∧ l ≡ₚ [10; 20; 30].
Proof.
  apply (applyPerm_Permutation 4 (two_arrays [10; 20; 30] [2; 0; 1])
           0%nat 1%nat [10; 20; 30] [2; 0; 1]);
    [reflexivity|reflexivity|discriminate| |simpl; lia].
  change (seqZ 0 (Z.of_nat (length [10; 20; 30]))) with [0; 1; 2].
  apply (Permutation_cons_append [0; 1] 2).
Defined.

Lemma selected_length A P : length (selected A P) = length P.
Proof. unfold selected. by rewrite length_fmap. Qed.

(** X9: applying an index array and then one that undoes it (entry [i] of
    the second names the position at which the first holds [i]) restores
    the contents of [arr]. *)
Theorem applyPerm_inverse fuel σ arr p q A P Q :
  heap σ !! arr = Some A →
  heap σ !! p = Some P →
  heap σ !! q = Some Q →
  arr ≠ p → arr ≠ q →
  length P = length A → length Q = length A →
  Forall (λ k, 0 ≤ k < Z.of_nat (length A)) P →
  (∀ i k, Q !! i = Some k → pick P k = Some (Z.of_nat i)) →
  (length A < fuel)%nat →
  ∃ w1 σ1 w2 σ2,
    applyPerm fuel arr p σ = Ok w1 σ1
    ∧ applyPerm fuel arr q σ1 = Ok w2 σ2
    ∧ heap σ2 !! arr = Some A.
Proof.
  intros Harr Hp Hq Hap Haq HlenP HlenQ HP Hinv Hfuel.
  destruct (applyPerm_run fuel σ arr p A P (selected A P))
    as (tmp & Htmp & Hrun1);
    [done|done|done|by apply Forall2_pick_selected|lia|].
  rewrite drop_ge, app_nil_r in Hrun1 by lia.
  set (σ1 := set_array arr (selected A P) (set_array tmp A σ)) in *.
  assert (heap σ1 !! arr = Some (selected A P)) as Harr1
    by apply set_array_lookup.
  assert (heap σ1 !! q = Some Q) as Hq1.
  { unfold σ1. rewrite !set_array_lookup_ne; [done| |done].
    intros ->. by rewrite Htmp in Hq. }
  assert (Forall (λ k, 0 ≤ k < Z.of_nat (length (selected A P))) Q) as HQ.
  { apply Forall_forall. intros k (i & Hi)%list_elem_of_lookup_1.
    apply Hinv, pick_Some in Hi as [? Hi%lookup_lt_Some].
    rewrite selected_length. lia. }
  destruct (applyPerm_run fuel σ1 arr q (selected A P) Q
              (selected (selected A P) Q))
    as (tmp2 & _ & Hrun2);
    [done|done|done|by apply Forall2_pick_selected|lia|].
  rewrite drop_ge, app_nil_r in Hrun2 by (rewrite selected_length; lia).
  eexists _, σ1, _, _. split_and!; [done|done|].
  rewrite set_array_lookup. f_equal.
  apply list_eq_same_length with (length A);
    [done|by rewrite selected_length|].
  intros i x y Hi Hx Hy.
  destruct (lookup_lt_is_Some_2 Q i) as [k Hk]; [lia|].
  rewrite Forall_forall in HQ.
  rewrite (selected_lookup _ Q i k) in Hx
    by (done || by eapply HQ, list_elem_of_lookup_2).
  apply Hinv, pick_Some in Hk as [Hk0 Hk].
  rewrite Forall_forall in HP.
  rewrite (selected_lookup _ P _ (Z.of_nat i)) in Hx;
    [|by eapply HP, list_elem_of_lookup_2|done].
  rewrite Nat2Z.id in Hx. congruence.
Qed.

Lemma applyPerm_inverse_witness :
  ∃ w1 σ1 w2 σ2,
    applyPerm 4 0%nat 1%nat
      (set_array 2%nat [1; 2; 0] (two_arrays [10; 20; 30] [2; 0; 1]))
    = Ok w1 σ1
    ∧ applyPerm 4 0%nat 2%nat σ1 = Ok w2 σ2
    ∧ heap σ2 !! 0%nat = Some [10; 20; 30].
Proof.
  apply (applyPerm_inverse 4
           (set_array 2%nat [1; 2; 0] (two_arrays [10; 20; 30] [2; 0; 1]))
           0%nat 1%nat 2%nat [10; 20; 30] [2; 0; 1] [1; 2; 0]);
    [reflexivity|reflexivity|reflexivity|discriminate|discriminate
    |reflexivity|reflexivity| | |simpl; lia].
  - repeat constructor; simpl; lia.
  - intros [|[|[|i]]] k Hk; simplify_eq/=; reflexivity.
Defined.

Lemma Array_sort_Permutation_eq A A' :
  A ≡ₚ A' → Array_sort d3_ascending A = Array_sort d3_ascending A'.
Proof.
  intros HA. apply (Sorted_unique Z.le).
  - apply StronglySorted_Sorted, Array_sort_StronglySorted.
  - apply StronglySorted_Sorted, Array_sort_StronglySorted.
  - by rewrite !Array_sort_Permutation.
Qed.

(** X10: when neither array is empty, the contents of the array
    [getRemaining] returns do not depend on the order in which the elements
    of the two arrays are given. *)
Theorem getRemaining_order_irrelevant fuel σ1 σ2 ixs minus A1 B1 A2 B2 :
  heap σ1 !! ixs = Some A1 → heap σ1 !! minus = Some B1 →
  heap σ2 !! ixs = Some A2 → heap σ2 !! minus = Some B2 →
  A1 ≡ₚ A2 → B1 ≡ₚ B2 →
  A1 ≠ [] → B1 ≠ [] →
  (length A1 + length B1 < fuel)%nat →
  ∃ r1 σ1' r2 σ2' l,
    getRemaining fuel ixs minus σ1 = Ok r1 σ1'
    ∧ getRemaining fuel ixs minus σ2 = Ok r2 σ2'
    ∧ heap σ1' !! r1 = Some l
    ∧ heap σ2' !! r2 = Some l.
Proof.
  intros Hixs1 Hminus1 Hixs2 Hminus2 HA HB HA1 HB1 Hfuel.
  assert (A2 ≠ []) by (intros ->; by apply Permutation_nil_r in HA).
  assert (B2 ≠ []) by (intros ->; by apply Permutation_nil_r in HB).
  destruct (getRemaining_merge_sorted fuel σ1 ixs minus A1 B1)
    as (s1 & r1 & _ & _ & _ & _ & Hrun1 & _); [done..|].
  destruct (getRemaining_merge_sorted fuel σ2 ixs minus A2 B2)
    as (s2 & r2 & _ & _ & _ & _ & Hrun2 & _);
    [done|done|done|done|by rewrite <-HA, <-HB|].
  eexists r1, _, r2, _, _. split_and!; [done|done|apply set_array_lookup|].
  rewrite set_array_lookup. f_equal.
  rewrite (Array_sort_Permutation_eq A1 A2) by done.
  apply list_filter_iff. intros x. by rewrite HB.
Qed.

Lemma getRemaining_order_irrelevant_witness :
  ∃ r1 σ1' r2 σ2' l,
    getRemaining 8 0%nat 1%nat (two_arrays [5; 3; 1; 3] [7; 3]) = Ok r1 σ1'
    ∧ getRemaining 8 0%nat 1%nat (two_arrays [3; 1; 3; 5] [3; 7]) = Ok r2 σ2'
    ∧ heap σ1' !! r1 = Some l
    ∧ heap σ2' !! r2 = Some l.
Proof.
  apply (getRemaining_order_irrelevant 8
           (two_arrays [5; 3; 1; 3] [7; 3]) (two_arrays [3; 1; 3; 5] [3; 7])
           0%nat 1%nat [5; 3; 1; 3] [7; 3] [3; 1; 3; 5] [3; 7]);
    [reflexivity|reflexivity|reflexivity|reflexivity
    | | |discriminate|discriminate|simpl; lia].
  - apply (Permutation_cons_append [3; 1; 3] 5).
  - apply (Permutation_cons_append [3] 7).
Defined.

(** ** [rectIntersect] *)

Lemma rectIntersect_true rectA rectB :
  rectIntersect rectA rectB = true ↔
  0 < rect.width rectA ∧ 0 < rect.height rectA
  ∧ 0 < rect.width rectB ∧ 0 < rect.height rectB
  ∧ rect.x rectA < double_add (rect.x rectB) (rect.width rectB)
  ∧ rect.y rectA < double_add (rect.y rectB) (rect.height rectB)
  ∧ rect.x rectB < double_add (rect.x rectA) (rect.width rectA)
  ∧ rect.y rectB < double_add (rect.y rectA) (rect.height rectA).
Proof.
  unfold rectIntersect.
  destruct (rect.width rectA <=? 0) eqn:?, (rect.height rectA <=? 0) eqn:?,
    (rect.width rectB <=? 0) eqn:?, (rect.height rectB <=? 0) eqn:?;
    cbn [orb]; try (split; [done|lia]).
  rewrite !andb_true_iff, !Z.gtb_ltb, !Z.ltb_lt. lia.
Qed.

(** X11: [rectIntersect] does not depend on the order of its arguments. *)
Theorem rectIntersect_symmetric rectA rectB :
  rectIntersect rectA rectB = rectIntersect rectB rectA.
Proof.
  apply eq_true_iff_eq. rewrite !rectIntersect_true. lia.
Qed.

Lemma double_add_exact a b : Z.abs (a + b) ≤ 2 ^ 53 → double_add a b = a + b.
Proof.
  intros Hs. unfold double_add.
  destruct (Z.abs (a + b) <? 2 ^ 53) eqn:Hlt; [done|].
  apply Z.ltb_ge in Hlt.
  assert (a + b = 2 ^ 53 ∨ a + b = - 2 ^ 53) as [-> | ->] by lia; reflexivity.
Qed.

(** X12: for two rectangles whose sums of coordinate and size are of
    magnitude at most 2^53, where the additions of the code are exact, the
    rectangles intersect exactly when some unit cell lies in both; in
    particular a rectangle without positive width and height, which holds no
    cell, intersects nothing, and two rectangles that only share an edge do
    not intersect. *)
Theorem rectIntersect_shared_cell rectA rectB :
  exact_sums rectA →
  exact_sums rectB →
  rectIntersect rectA rectB = true ↔
  ∃ px py, covers rectA px py ∧ covers rectB px py.
Proof.
  intros [HAx HAy] [HBx HBy].
  rewrite rectIntersect_true, !double_add_exact by done.
  unfold covers. split.
  - intros H.
    exists (Z.max (rect.x rectA) (rect.x rectB)),
      (Z.max (rect.y rectA) (rect.y rectB)). lia.
  - intros (px & py & HA & HB). lia.
Qed.

Lemma rectIntersect_shared_cell_witness :
  rectIntersect (rect.Rect 0 0 2 2) (rect.Rect 1 1 2 2) = true ↔
  ∃ px py, covers (rect.Rect 0 0 2 2) px py ∧ covers (rect.Rect 1 1 2 2) px py.
Proof.
  apply (rectIntersect_shared_cell (rect.Rect 0 0 2 2) (rect.Rect 1 1 2 2));
    split; vm_compute; discriminate.
Defined.

(** ** [convertClasses] and [isEmpty] *)

Lemma convertClasses_foldl_lookup l (obj : gmap string bool) c :
  foldl (λ obj c, object_set c true obj) obj l !! c
  = if decide (c ∈ l ∧ c ≠ "__proto__") then Some true else obj !! c.
Proof.
  revert obj. induction l as [|c' l IH]; intros obj; cbn [foldl].
  - rewrite decide_False; [done|]. intros [[]%elem_of_nil _].
  - rewrite IH. destruct (decide (c ∈ l ∧ c ≠ "__proto__")) as [[Hin Hc]|Hn].
    + rewrite decide_True; [done|]. split; [by right|done].
    + unfold object_set. destruct (decide (c' = "__proto__")) as [->|Hc'].
      * rewrite decide_False; [done|].
        intros [[->|?]%elem_of_cons ?]; tauto.
      * destruct (decide (c = c')) as [->|Hne].
        -- rewrite lookup_insert_eq, decide_True; [done|].
           split; [by left|done].
        -- rewrite lookup_insert_ne by done. rewrite decide_False; [done|].
           intros [[->|?]%elem_of_cons ?]; tauto.
Qed.

Lemma convertClasses_Some_lookup l c :
  convertClasses (Some l) !! c
  = if decide (c ∈ l ∧ c ≠ "__proto__") then Some true else None.
Proof. unfold convertClasses. by rewrite convertClasses_foldl_lookup. Qed.

(** X13: the object [convertClasses] returns has [true] under exactly the
    class names given, the name [__proto__] apart, and no other property;
    for [null] it has none. *)
Theorem convertClasses_lookup classes c :
  (convertClasses classes !! c = Some true ↔
   c ≠ "__proto__" ∧ ∃ l, classes = Some l ∧ c ∈ l)
  ∧ convertClasses classes !! c ≠ Some false.
Proof.
  destruct classes as [l|].
  - rewrite convertClasses_Some_lookup.
    destruct (decide (c ∈ l ∧ c ≠ "__proto__")) as [[??]|Hn].
    + split; [|done]. split; [|done]. intros _. split; [done|by exists l].
    + split; [|done]. split; [done|].
      intros (? & l' & [= <-] & ?). tauto.
  - cbn [convertClasses]. rewrite lookup_empty. split; [|done].
    split; [done|]. by intros (_ & l & ? & _).
Qed.

Lemma isEmpty_true {V} (obj : gmap string V) : isEmpty obj = true ↔ obj = ∅.
Proof.
  unfold isEmpty, Object_keys. rewrite Nat.eqb_eq, length_fmap.
  rewrite <-map_to_list_empty_iff. split.
  - by intros ?%nil_length_inv.
  - by intros ->.
Qed.

(** X14: the object [convertClasses] returns is empty for [isEmpty] exactly
    when no class name other than [__proto__] was given. *)
Theorem isEmpty_convertClasses classes :
  isEmpty (convertClasses classes) = true ↔
  ∀ l, classes = Some l → Forall (λ c, c = "__proto__") l.
Proof.
  rewrite isEmpty_true. split.
  - intros Hempty l ->. apply Forall_forall. intros c Hc.
    destruct (decide (c = "__proto__")) as [|Hne]; [done|].
    pose proof (convertClasses_Some_lookup l c) as Hl.
    rewrite Hempty, lookup_empty, decide_True in Hl; done.
  - intros Hall. destruct classes as [l|]; [|done].
    apply map_eq. intros c. rewrite convertClasses_Some_lookup, lookup_empty.
    apply decide_False. intros [Hin Hc].
    specialize (Hall l eq_refl). rewrite Forall_forall in Hall. auto.
Qed.

(** X15: the object [convertClasses] returns depends on the class names
    given, not on their order or on how often each occurs. *)
Theorem convertClasses_same_names l1 l2 :
  (∀ c, c ∈ l1 ↔ c ∈ l2) →
  convertClasses (Some l1) = convertClasses (Some l2).
Proof.
  intros Hsame. apply map_eq. intros c.
  rewrite !convertClasses_Some_lookup. apply decide_ext. by rewrite Hsame.
Qed.

Lemma convertClasses_same_names_witness :
  convertClasses (Some ["a"; "b"; "a"]) = convertClasses (Some ["b"; "a"]).
Proof.
  apply (convertClasses_same_names ["a"; "b"; "a"] ["b"; "a"]).
  intros c. rewrite !elem_of_cons, !elem_of_nil. tauto.
Defined.

(** ** The [startsWith] substitute *)

Section strings_facts.
Context {U : Type} `{EqDecision U}.
Implicit Types s search : list U.

Lemma occurs_at_prefix s search k :
  occurs_at s search k = true ↔ search `prefix_of` drop k s.
Proof.
  unfold occurs_at. rewrite bool_decide_eq_true. split.
  - intros <-. apply prefix_take.
  - intros [rest ->]. by rewrite take_app_length.
Qed.

Lemma last_occurrence_Some s search k j :
  last_occurrence s search k = Some j →
  (j ≤ k)%nat ∧ occurs_at s search j = true.
Proof.
  induction k as [|k IH]; cbn [last_occurrence].
  - destruct (occurs_at s search 0) eqn:Hk; intros Hj; by simplify_eq.
  - destruct (occurs_at s search (S k)) eqn:Hk; intros Hj.
    + by simplify_eq.
    + destruct (IH Hj). auto.
Qed.

Lemma lastIndexOf_bounds s search position :
  -1 ≤ lastIndexOf s search position
  ≤ Z.max 0 (Z.min position (Z.of_nat (length s))).
Proof.
  unfold lastIndexOf.
  destruct (last_occurrence s search _) as [j|] eqn:Hj; [|lia].
  apply last_occurrence_Some in Hj as [? _]. lia.
Qed.

(** X16: for a position within the string (or left out, which stands for
    0), the substitute answers [true] exactly when [search] is a prefix of
    what the string holds from that position on. *)
Theorem startsWith_in_range s search position :
  0 ≤ default 0 position ≤ Z.of_nat (length s) →
  startsWith s search position = true ↔
  search `prefix_of` drop (Z.to_nat (default 0 position)) s.
Proof.
  intros Hpos. unfold startsWith, lastIndexOf.
  set (pos := default 0 position) in *. rewrite bool_decide_eq_true.
  replace (Z.max 0 (Z.min pos (Z.of_nat (length s)))) with pos by lia.
  rewrite <-occurs_at_prefix.
  destruct (Z.to_nat pos) as [|k] eqn:Hk; cbn [last_occurrence];
    destruct (occurs_at s search _) eqn:Hocc.
  - split; [done|lia].
  - split; [lia|done].
  - split; [done|lia].
  - split; [|done]. destruct (last_occurrence s search k) as [j|] eqn:Hj.
    + apply last_occurrence_Some in Hj as [? _]. lia.
    + lia.
Qed.

(** X17: for a position beyond the end of the string the substitute answers
    [false], whatever is searched for, the empty string included. *)
Theorem startsWith_beyond_end s search position :
  Z.of_nat (length s) < position →
  startsWith s search (Some position) = false.
Proof.
  intros Hpos. unfold startsWith. cbn [default from_option id].
  apply bool_decide_eq_false.
  pose proof (lastIndexOf_bounds s search position). lia.
Qed.

(** X18: for a negative position the substitute answers [true] exactly when
    the position is -1 and the string does not start with [search]. *)
Theorem startsWith_negative s search position :
  position < 0 →
  startsWith s search (Some position) = true ↔
  position = -1 ∧ ¬ search `prefix_of` s.
Proof.
  intros Hpos. unfold startsWith, lastIndexOf. cbn [default from_option id].
  rewrite bool_decide_eq_true.
  replace (Z.max 0 (Z.min position (Z.of_nat (length s)))) with 0 by lia.
  change (Z.to_nat 0) with 0%nat. cbn [last_occurrence].
  rewrite <-(drop_0 s) at 2. rewrite <-occurs_at_prefix.
  destruct (occurs_at s search 0).
  - split; [lia|]. by intros [_ []].
  - split; [by intros <-|by intros [-> _]].
Qed.
End strings_facts.

Lemma startsWith_in_range_witness :
  startsWith [1; 2; 3; 4]%nat [3; 4]%nat (Some 2) = true ↔
  [3; 4]%nat `prefix_of` drop (Z.to_nat (default 0 (Some 2))) [1; 2; 3; 4]%nat.
Proof.
  apply (startsWith_in_range [1; 2; 3; 4]%nat [3; 4]%nat (Some 2)).
  simpl. lia.
Defined.

Lemma startsWith_beyond_end_witness :
  startsWith [1; 2; 3]%nat [] (Some 4) = false.
Proof.
  apply (startsWith_beyond_end [1; 2; 3]%nat [] 4). simpl. lia.
Defined.

Lemma startsWith_negative_witness :
  startsWith [1; 2; 3]%nat [9]%nat (Some (-1)) = true ↔
  -1 = -1 ∧ ¬ [9]%nat `prefix_of` [1; 2; 3]%nat.
Proof.
  apply (startsWith_negative [1; 2; 3]%nat [9]%nat (-1)). lia.
Defined.

(** ** [toFront] *)

(** The document [d] with [cs] as the children of [p]. *)
Lemma children_of_lookup d p cs :
  childNodes d !! p = Some cs → children_of d p = cs.
Proof. intros H. unfold children_of. by rewrite H. Qed.

Lemma filter_ne_head (obj : nat) cs :
  NoDup (obj :: cs) → filter (λ c, c ≠ obj) (obj :: cs) = cs.
Proof.
  intros [Hobj _]%NoDup_cons. rewrite filter_cons_False by (intros ?; done).
  induction cs as [|c cs IH]; [done|].
  apply not_elem_of_cons in Hobj as [??].
  rewrite filter_cons_True by done. by rewrite IH.
Qed.

Lemma appendChild_own d p cs obj :
  childNodes d !! p = Some cs →
  parentElement d !! obj = Some p →
  appendChild p obj d
  = Document (parentElement d)
             (<[p := filter (λ c, c ≠ obj) cs ++ [obj]]> (childNodes d)).
Proof.
  intros Hp Hobj. unfold appendChild, detach, attach. rewrite Hobj.
  rewrite (children_of_lookup d p cs Hp). unfold children_of. cbn.
  rewrite lookup_insert_eq. cbn.
  by rewrite insert_delete_eq, (insert_id _ _ _ Hobj), insert_insert_eq.
Qed.

Lemma insertBefore_first d p cs obj :
  childNodes d !! p = Some cs →
  NoDup cs →
  (∀ c, c ∈ cs → parentElement d !! c = Some p) →
  obj ∈ cs →
  insertBefore p obj (firstChild d p) d
  = Some (Document (parentElement d)
                   (<[p := obj :: filter (λ c, c ≠ obj) cs]> (childNodes d))).
Proof.
  intros Hp Hnd Hpar Hobj. unfold firstChild.
  rewrite (children_of_lookup d p cs Hp).
  destruct cs as [|r cs]; [by apply elem_of_nil in Hobj|].
  cbn [head insertBefore].
  rewrite decide_True by (apply Hpar; by left).
  destruct (decide (r = obj)) as [->|Hne].
  - rewrite filter_ne_head by done. rewrite (insert_id _ _ _ Hp).
    by destruct d.
  - unfold detach, attach. rewrite (Hpar obj Hobj).
    rewrite (children_of_lookup d p _ Hp). unfold children_of. cbn.
    rewrite lookup_insert_eq. cbn.
    rewrite insert_delete_eq, (insert_id _ _ _ (Hpar obj Hobj)).
    rewrite insert_insert_eq, (decide_True (P := r ≠ obj)) by done.
    cbn [insert_before]. by rewrite decide_True.
Qed.

(** The children of [p] after the nodes of [sel] went to the back, or to the
    front, one after the other. *)
Lemma foldl_to_back (sel cs : list nat) :
  NoDup sel →
  foldl (λ cs obj, filter (λ c, c ≠ obj) cs ++ [obj]) cs sel
  = filter (λ c, c ∉ sel) cs ++ sel.
Proof.
  revert cs. induction sel as [|obj sel IH]; intros cs Hnd; cbn [foldl].
  - rewrite app_nil_r. symmetry. clear.
    induction cs as [|c cs IH]; [done|].
    rewrite filter_cons_True by apply not_elem_of_nil. by rewrite IH.
  - apply NoDup_cons in Hnd as [Hobj Hnd]. rewrite IH by done.
    rewrite filter_app, list_filter_filter.
    rewrite (filter_cons_True _ obj []) by done. cbn.
    rewrite <-(assoc_L (++)). cbn. f_equal.
    apply list_filter_iff. intros c. rewrite not_elem_of_cons. tauto.
Qed.

Lemma foldl_to_front (sel cs : list nat) :
  NoDup sel →
  foldl (λ cs obj, obj :: filter (λ c, c ≠ obj) cs) cs sel
  = reverse sel ++ filter (λ c, c ∉ sel) cs.
Proof.
  revert cs. induction sel as [|obj sel IH]; intros cs Hnd; cbn [foldl].
  - cbn. symmetry. clear.
    induction cs as [|c cs IH]; [done|].
    rewrite filter_cons_True by apply not_elem_of_nil. by rewrite IH.
  - apply NoDup_cons in Hnd as [Hobj Hnd]. rewrite IH by done.
    rewrite reverse_cons, <-(assoc_L (++)). f_equal.
    rewrite filter_cons_True by done. cbn. f_equal.
    rewrite list_filter_filter.
    apply list_filter_iff. intros c. rewrite not_elem_of_cons. tauto.
Qed.

Lemma move_Permutation (obj : nat) cs :
  NoDup cs → obj ∈ cs → obj :: filter (λ c, c ≠ obj) cs ≡ₚ cs.
Proof.
  intros Hnd Hobj. apply NoDup_Permutation; [|done|].
  - apply NoDup_cons. split; [|by apply NoDup_filter].
    by intros [? _]%list_elem_of_filter.
  - intros c. rewrite elem_of_cons, list_elem_of_filter.
    destruct (decide (c = obj)) as [->|Hne]; [by split; auto|].
    split; [by intros [?|[_ ?]]|by right].
Qed.

Lemma toFront_cons sel b obj d :
  toFront (obj :: sel) b d = toFront_each b obj d ≫= toFront sel b.
Proof.
  unfold toFront. cbn [foldl mbind option_bind].
  destruct (toFront_each b obj d) as [d'|]; [done|].
  cbn. induction sel as [|o sel IH]; [done|]. by cbn.
Qed.

Lemma toFront_run b sel d p cs :
  childNodes d !! p = Some cs →
  NoDup cs →
  (∀ c, c ∈ cs → parentElement d !! c = Some p) →
  (∀ obj, obj ∈ sel → obj ∈ cs) →
  toFront sel b d
  = Some (Document (parentElement d)
            (<[p := foldl (λ cs obj,
                            if b then filter (λ c, c ≠ obj) cs ++ [obj]
                            else obj :: filter (λ c, c ≠ obj) cs) cs sel]>
               (childNodes d))).
Proof.
  revert d cs. induction sel as [|obj sel IH]; intros d cs Hp Hnd Hpar Hsel.
  - cbn. rewrite (insert_id _ _ _ Hp). by destruct d.
  - assert (obj ∈ cs) as Hobj by (apply Hsel; by left).
    set (cs1 := if b then filter (λ c, c ≠ obj) cs ++ [obj]
                else obj :: filter (λ c, c ≠ obj) cs).
    assert (cs1 ≡ₚ cs) as Hperm.
    { unfold cs1. destruct b; [|by apply move_Permutation].
      rewrite <-(move_Permutation obj cs) at 2 by done.
      symmetry. apply Permutation_cons_append. }
    assert (toFront_each b obj d
            = Some (Document (parentElement d) (<[p := cs1]> (childNodes d))))
      as Heach.
    { unfold toFront_each. rewrite (Hpar obj Hobj). cbn. destruct b.
      - by rewrite (appendChild_own d p cs) by auto.
      - by rewrite (insertBefore_first d p cs) by auto. }
    rewrite toFront_cons, Heach. cbn [mbind option_bind].
    rewrite (IH _ cs1); cbn.
    + by rewrite insert_insert_eq.
    + apply lookup_insert_eq.
    + by rewrite Hperm.
    + intros c Hc. apply Hpar. by rewrite <-Hperm.
    + intros o Ho. rewrite Hperm. apply Hsel. by right.
Qed.

(** X19: with [toFront] true and a selection of distinct children of one
    element, the children end up as those not selected, in their order,
    followed by the selection, in its order; parents and the children of
    every other element stay as they were. *)
Theorem toFront_to_back sel d p cs :
  childNodes d !! p = Some cs →
  NoDup cs →
  (∀ c, c ∈ cs → parentElement d !! c = Some p) →
  (∀ obj, obj ∈ sel → obj ∈ cs) →
  NoDup sel →
  toFront sel true d
  = Some (Document (parentElement d)
            (<[p := filter (λ c, c ∉ sel) cs ++ sel]> (childNodes d))).
Proof.
  intros Hp Hnd Hpar Hsel Hndsel.
  rewrite (toFront_run true sel d p cs) by done.
  by rewrite foldl_to_back.
Qed.

(** X20: with [toFront] false and a selection of distinct children of one
    element, the children end up as the selection, in reverse order,
    followed by those not selected, in their order; parents and the
    children of every other element stay as they were. *)
Theorem toFront_to_front sel d p cs :
  childNodes d !! p = Some cs →
  NoDup cs →
  (∀ c, c ∈ cs → parentElement d !! c = Some p) →
  (∀ obj, obj ∈ sel → obj ∈ cs) →
  NoDup sel →
  toFront sel false d
  = Some (Document (parentElement d)
            (<[p := reverse sel ++ filter (λ c, c ∉ sel) cs]> (childNodes d))).
Proof.
  intros Hp Hnd Hpar Hsel Hndsel.
  rewrite (toFront_run false sel d p cs) by done.
  by rewrite foldl_to_front.
Qed.

Lemma toFront_to_back_witness :
  toFront [3; 1]%nat true four_children
  = Some (Document (parentElement four_children)
            (<[0%nat := filter (λ c, c ∉ [3; 1]%nat) [1; 2; 3; 4]%nat
                        ++ [3; 1]%nat]>
               (childNodes four_children))).
Proof.
  apply (toFront_to_back [3; 1]%nat four_children 0%nat [1; 2; 3; 4]%nat).
  - reflexivity.
  - apply (bool_decide_unpack _). reflexivity.
  - intros c Hc.
    repeat (apply elem_of_cons in Hc as [->|Hc]; [reflexivity|]).
    by apply elem_of_nil in Hc.
  - intros c Hc. apply (bool_decide_unpack _).
    repeat (apply elem_of_cons in Hc as [->|Hc]; [reflexivity|]).
    by apply elem_of_nil in Hc.
  - apply (bool_decide_unpack _). reflexivity.
Defined.

Lemma toFront_to_front_witness :
  toFront [3; 1]%nat false four_children
  = Some (Document (parentElement four_children)
            (<[0%nat := reverse [3; 1]%nat
                        ++ filter (λ c, c ∉ [3; 1]%nat) [1; 2; 3; 4]%nat]>
               (childNodes four_children))).
Proof.
  apply (toFront_to_front [3; 1]%nat four_children 0%nat [1; 2; 3; 4]%nat).
  - reflexivity.
  - apply (bool_decide_unpack _). reflexivity.
  - intros c Hc.
    repeat (apply elem_of_cons in Hc as [->|Hc]; [reflexivity|]).
    by apply elem_of_nil in Hc.
  - intros c Hc. apply (bool_decide_unpack _).
    repeat (apply elem_of_cons in Hc as [->|Hc]; [reflexivity|]).
    by apply elem_of_nil in Hc.
  - apply (bool_decide_unpack _). reflexivity.
Defined.

(** ** [getQueryStrings] *)

Lemma split_on_String sep c s :
  split_on sep (String c s)
  = if decide (c = sep) then EmptyString :: split_on sep s
    else match split_on sep s with
         | piece :: pieces => String c piece :: pieces
         | [] => [String c EmptyString]
         end.
Proof. done. Qed.

Lemma contains_String c c' s :
  contains c (String c' s) = false ↔ c' ≠ c ∧ contains c s = false.
Proof.
  change (contains c (String c' s))
    with (bool_decide (c' = c) || contains c s).
  by rewrite orb_false_iff, bool_decide_eq_false.
Qed.

Lemma append_empty_l s : EmptyString +:+ s = s.
Proof. done. Qed.

Lemma append_String c s1 s2 : String c s1 +:+ s2 = String c (s1 +:+ s2).
Proof. done. Qed.

Lemma split_on_not_nil sep s : split_on sep s ≠ [].
Proof.
  destruct s as [|c s]; [done|]. rewrite split_on_String.
  destruct (decide (c = sep)); [done|]. by destruct (split_on sep s).
Qed.

Lemma split_on_absent sep s : contains sep s = false → split_on sep s = [s].
Proof.
  induction s as [|c s IH]; [done|].
  intros [Hc Hs]%contains_String. rewrite split_on_String.
  rewrite decide_False by done. by rewrite IH.
Qed.

Lemma split_on_first sep k rest :
  contains sep k = false →
  split_on sep (k +:+ String sep rest) = k :: split_on sep rest.
Proof.
  induction k as [|c k IH].
  - intros _. rewrite append_empty_l, split_on_String. by rewrite decide_True.
  - intros [Hc Hk]%contains_String. rewrite append_String, split_on_String.
    rewrite decide_False by done. by rewrite IH.
Qed.

Lemma split_on_last sep s e :
  contains sep e = false →
  split_on sep (s +:+ String sep e) = split_on sep s ++ [e].
Proof.
  intros He. induction s as [|c s IH].
  - rewrite append_empty_l, split_on_String, decide_True by done.
    by rewrite split_on_absent.
  - rewrite append_String, !split_on_String, IH.
    destruct (decide (c = sep)); [done|].
    pose proof (split_on_not_nil sep s). by destruct (split_on sep s).
Qed.

Lemma split_on_pieces_absent c sep s :
  contains c s = false →
  Forall (λ piece, contains c piece = false) (split_on sep s).
Proof.
  induction s as [|c' s IH].
  - by repeat constructor.
  - intros [Hc Hs]%contains_String. specialize (IH Hs).
    rewrite split_on_String.
    destruct (decide (c' = sep)); [by constructor|].
    pose proof (split_on_not_nil sep s).
    destruct (split_on sep s) as [|piece pieces]; [done|].
    apply Forall_cons in IH as [Hpiece Hpieces].
    constructor; [|done]. by apply contains_String.
Qed.

Lemma append_empty_r s : s +:+ EmptyString = s.
Proof.
  induction s as [|c s IH]; [done|]. by rewrite append_String, IH.
Qed.

Section query_facts.
Variable decodeURIComponent : string → option string.

Lemma getQueryStrings_each_no_equals e assoc :
  contains "="%char e = false →
  getQueryStrings_each decodeURIComponent e assoc = Some assoc.
Proof.
  intros He. unfold getQueryStrings_each. by rewrite split_on_absent.
Qed.

(** X21: when no [=] occurs in the query (an empty query included), the
    result is the empty object, and nothing is decoded: this holds whatever
    [decodeURIComponent] does. *)
Theorem getQueryStrings_no_equals search :
  contains "="%char (substring_1 search) = false →
  getQueryStrings decodeURIComponent search = Some ∅.
Proof.
  intros Hq. unfold getQueryStrings.
  pose proof (split_on_pieces_absent _ "&"%char _ Hq) as Hpieces.
  induction Hpieces as [|e es He Hes IH]; [done|].
  cbn [foldl mbind option_bind]. by rewrite getQueryStrings_each_no_equals.
Qed.

(** X22: the components of the query are taken from left to right, each on
    the object the ones before it left: a query with one more component [e]
    gives what the query without it gives, then changed by [e]; so of two
    components with the same key the later one decides. *)
Theorem getQueryStrings_append c0 q e :
  contains "&"%char e = false →
  getQueryStrings decodeURIComponent (String c0 (q +:+ String "&"%char e))
  = getQueryStrings decodeURIComponent (String c0 q)
    ≫= getQueryStrings_each decodeURIComponent e.
Proof.
  intros He. unfold getQueryStrings. cbn [substring_1].
  by rewrite split_on_last, foldl_app by done.
Qed.

(** X23: a component [k=v], and just as well [k=v=w], sets the decoded [k]
    to the decoded [v] (what follows a second [=] is dropped), [+] standing
    for a space; it makes the call throw when either decoding throws. *)
Theorem getQueryStrings_each_pair k v tail assoc :
  contains "="%char k = false →
  contains "="%char v = false →
  tail = EmptyString ∨ (∃ w, tail = String "="%char w) →
  getQueryStrings_each decodeURIComponent (k +:+ String "="%char (v +:+ tail))
    assoc
  = (k' ← decodeURIComponent (replace_plus k);
     v' ← decodeURIComponent (replace_plus v);
     Some (object_set k' v' assoc)).
Proof.
  intros Hk Hv Htail. unfold getQueryStrings_each.
  rewrite split_on_first by done.
  assert (∃ pieces, split_on "="%char (v +:+ tail) = v :: pieces)
    as [pieces ->].
  { destruct Htail as [->|[w ->]].
    - exists []. by rewrite append_empty_r, split_on_absent.
    - eexists. by apply split_on_first. }
  done.
Qed.
End query_facts.

Lemma getQueryStrings_no_equals_witness :
  getQueryStrings (λ _, None) "?flag&other" = Some ∅.
Proof.
  apply (getQueryStrings_no_equals (λ _, None) "?flag&other"). reflexivity.
Defined.

Lemma getQueryStrings_append_witness :
  getQueryStrings Some (String "?" ("a=1&b=2" +:+ String "&" "a=3"))
  = getQueryStrings Some (String "?" "a=1&b=2")
    ≫= getQueryStrings_each Some "a=3".
Proof.
  apply (getQueryStrings_append Some "?"%char "a=1&b=2" "a=3"). reflexivity.
Defined.

Lemma getQueryStrings_each_pair_witness :
  getQueryStrings_each Some ("a+b" +:+ String "=" ("1+2" +:+ "=3")) ∅
  = (k' ← Some (replace_plus "a+b");
     v' ← Some (replace_plus "1+2");
     Some (object_set k' v' ∅)).
Proof.
  apply (getQueryStrings_each_pair Some "a+b" "1+2" "=3" ∅);
    [reflexivity|reflexivity|right; by exists "3"].
Defined.

(** ** [flatMap] *)

Lemma elem_of_concat {B} (b : B) (ls : list (list B)) :
  b ∈ concat ls ↔ ∃ l, l ∈ ls ∧ b ∈ l.
Proof.
  induction ls as [|l' ls IH]; cbn [concat].
  - split; [by intros ?%elem_of_nil|by intros (? & ?%elem_of_nil & _)].
  - rewrite elem_of_app, IH. split.
    + intros [?|(l & ? & ?)]; [exists l'|exists l]; split; try done;
        [by left|by right].
    + intros (l & [->|?]%elem_of_cons & ?); [by left|right; by exists l].
Qed.

(** X24: the result of [flatMap] holds exactly the elements of the lists
    the callback returned for the elements of the array, each called with
    its index and the array. *)
Theorem flatMap_elem_of {A B} (arr : list A)
    (fun_ : A → nat → list A → list B) b :
  b ∈ flatMap arr fun_ ↔ ∃ i a, arr !! i = Some a ∧ b ∈ fun_ a i arr.
Proof.
  unfold flatMap. rewrite elem_of_concat. split.
  - intros (l & (i & Hl)%list_elem_of_lookup_1 & Hb).
    rewrite list_lookup_imap in Hl.
    destruct (arr !! i) as [a|] eqn:Ha; simplify_eq/=. by exists i, a.
  - intros (i & a & Ha & Hb). exists (fun_ a i arr). split; [|done].
    apply (list_elem_of_lookup_2 _ i). by rewrite list_lookup_imap, Ha.
Qed.

Lemma flatMap_element_only {A B} (arr : list A) (f : A → list B) :
  flatMap arr (λ a _ _, f a) = concat (f <$> arr).
Proof. unfold flatMap. by rewrite <-imap_const. Qed.

(** X25: for callbacks that look at the element only, mapping flat twice
    is mapping flat once with the callbacks chained, and a callback that
    returns one-element lists makes [flatMap] a plain map. *)
Theorem flatMap_compose {A B C} (arr : list A)
    (f : A → list B) (g : B → list C) (h : A → B) :
  flatMap (flatMap arr (λ a _ _, f a)) (λ b _ _, g b)
  = flatMap arr (λ a _ _, flatMap (f a) (λ b _ _, g b))
  ∧ flatMap arr (λ a _ _, [h a]) = h <$> arr.
Proof.
  rewrite !flatMap_element_only. split.
  - induction arr as [|a arr IH]; [done|]. cbn [fmap list_fmap concat].
    rewrite fmap_app, concat_app, flatMap_element_only. f_equal. apply IH.
  - induction arr as [|a arr IH]; [done|]. cbn. by rewrite <-IH.
Qed.
